(** * Freefall: the particle manager (main.go) and the asset loaders

    A shallow embedding of the stateful core of the game: the [Dusts]
    collection of main.go with its per-tick [Update], and the sprite and
    sound loaders of the assets package.  Go pointers are addresses into an
    explicit heap, a Go slice is a backing array with a length, and a
    run-time panic or a [log.Fatal] is an explicit result. *)

From Stdlib Require Import ZArith Lia Bool Ascii String DecimalString
  Floats.PrimFloat.
From Stdlib Require DecimalPos DecimalZ.
From stdpp Require Import base option list strings.

Open Scope Z_scope.

(** ** Go's [int] on a 64-bit target *)

Module GoInt.

Definition int_min : Z := - 2 ^ 63.
Definition int_max : Z := 2 ^ 63 - 1.

(** Two's complement wrap-around of an arithmetic result. *)
Definition wrap (z : Z) : Z := (z + 2 ^ 63) mod 2 ^ 64 - 2 ^ 63.

Definition in_int (z : Z) : Prop := int_min <= z <= int_max.

(** [rand.Intn n]: panics when [n <= 0], otherwise some value of [[0, n)];
    the draw of the shared generator is the argument [seed]. *)
Definition rand_Intn (n : Z) (seed : Z) : option Z :=
  if n <=? 0 then None else Some (seed mod n).

End GoInt.

(** ** main.go: Dust and Dusts *)

Module Particles.
Import GoInt.

(** [image.Point] *)
Record Point := Pt { X : Z; Y : Z }.

(** [type Dust struct { Coords image.Point }] *)
Record Dust := mkDust { Coords : Point }.

(** A [*Dust] is an address of the heap; [None] is the nil pointer. *)
Abbreviation addr := nat.
Abbreviation Heap := (list Dust).

(** A slice header over its backing array: the capacity is the length of
    [array], the elements of the slice are the first [len] cells. *)
Record Slice := mkSlice { array : list (option addr); len : nat }.

Definition cap (s : Slice) : nat := length (array s).

(** [Dusts{}] *)
Definition empty : Slice := mkSlice [] 0.

(** The elements of the slice, as [range] or [Draw] see them from outside
    an [Update]. *)
Definition elements (s : Slice) : list (option addr) := take (len s) (array s).

(** Growth of a full backing array on [append] of one element (the
    run-time doubles small slices). *)
Definition newcap (c : nat) : nat := if (c =? 0)%nat then 1%nat else (2 * c)%nat.

(** [append(s, p)]: in place when there is room, otherwise into a fresh,
    zeroed array that receives a copy of the elements. *)
Definition append1 (s : Slice) (p : option addr) : Slice :=
  if (len s <? cap s)%nat
  then mkSlice (<[len s := p]> (array s)) (S (len s))
  else mkSlice (take (len s) (array s) ++ p ::
                  replicate (newcap (cap s) - S (len s)) None)
               (S (len s)).

(** [append(s[:i], s[i+1:]...)]: [s[:i]] needs [i <= cap], [s[i+1:]] needs
    [i+1 <= len], otherwise the slice expression panics.  The tail is
    moved one cell down inside the same backing array, whose cell
    [len-1] keeps its old content. *)
Definition remove_at (s : Slice) (i : nat) : option Slice :=
  if (i <=? cap s)%nat && (i + 1 <=? len s)%nat
  then Some (mkSlice (take i (array s)
                        ++ take (len s - (i + 1)) (drop (i + 1) (array s))
                        ++ drop (len s - 1) (array s))
                     (len s - 1))
  else None.

(** [func (d *Dust) Update()]: [d.Coords.Y--] (the two log lines are
    output only). *)
Definition Dust_Update (d : Dust) : Dust :=
  mkDust (Pt (X (Coords d)) (wrap (Y (Coords d) - 1))).

Definition maxDusts : nat := 5.

Section Board.

(** [nokia.GameSize.X] and [nokia.GameSize.Y] *)
Variables boardWidth boardHeight : Z.

(** The spawn step of [Dusts.Update]. *)
Definition spawn (seed : Z) (h : Heap) (ds : Slice) : option (Heap * Slice) :=
  if (len ds <? maxDusts)%nat
  then match rand_Intn boardWidth seed with
       | Some dsX =>
           Some (h ++ [mkDust (Pt dsX (wrap (boardHeight + 1)))],
                 append1 ds (Some (length h)))
       | None => None
       end
  else Some (h, ds).

(** The body of [for i, d := range *ds], run for the [n] indices that
    remain, from index [i].  The range expression was evaluated once: the
    loop reads cell [i] of the backing array whatever the current length
    of [*ds] is; the removals below never reallocate that array. *)
Fixpoint range_from (n : nat) (i : nat) (h : Heap) (ds : Slice)
  : option (Heap * Slice) :=
  match n with
  | O => Some (h, ds)
  | S n' =>
      match array ds !! i with
      | Some (Some a) =>
          match h !! a with
          | Some d =>
              let d' := Dust_Update d in
              let h' := <[a := d']> h in
              if Y (Coords d') <? 0
              then match remove_at ds i with
                   | Some ds' => range_from n' (S i) h' ds'
                   | None => None
                   end
              else range_from n' (S i) h' ds
          | None => None
          end
      | _ => None
      end
  end.

(** [func (ds *Dusts) Update()]; [None] is a run-time panic. *)
Definition Dusts_Update (seed : Z) (h : Heap) (ds : Slice)
  : option (Heap * Slice) :=
  match spawn seed h ds with
  | Some (h1, ds1) => range_from (len ds1) 0 h1 ds1
  | None => None
  end.

(** A sequence of ticks, one generator draw per tick. *)
Fixpoint run (seeds : list Z) (h : Heap) (ds : Slice) : option (Heap * Slice) :=
  match seeds with
  | [] => Some (h, ds)
  | seed :: rest =>
      match Dusts_Update seed h ds with
      | Some (h', ds') => run rest h' ds'
      | None => None
      end
  end.

End Board.

(** Every Dust of [h] is still allocated in [h'], with the same x. *)
Definition same_X (h h' : Heap) : Prop :=
  forall (a : addr) (d : Dust), h !! a = Some d ->
    exists d', h' !! a = Some d' /\ X (Coords d') = X (Coords d).

(** The slice holds [len] allocated Dusts, each once, in a backing array
    that has room for them. *)
Definition live (h : Heap) (ds : Slice) : Prop :=
  (len ds <= cap ds)%nat /\
  (forall j : nat, (j < len ds)%nat ->
     exists (a : addr) (d : Dust), array ds !! j = Some (Some a) /\ h !! a = Some d) /\
  (forall (j j' : nat) (a : addr), (j < len ds)%nat -> (j' < len ds)%nat ->
     array ds !! j = Some (Some a) -> array ds !! j' = Some (Some a) -> j = j').

(** The y-coordinates of the Dusts the slice holds, in slice order. *)
Definition ys (h : Heap) (ds : Slice) : list (option Z) :=
  (fun p : option addr =>
     match p with
     | Some a => (fun d : Dust => Y (Coords d)) <$> h !! a
     | None => None
     end) <$> elements ds.

(** The reading under which a Dust is not advanced in the tick that
    spawns it: right after that [Update] its y is still [boardHeight + 1]. *)
Definition spawned_Dust_keeps_y (boardWidth boardHeight : Z) : Prop :=
  forall (seed : Z) (h h' : Heap) (ds ds' : Slice),
    live h ds -> (len ds < maxDusts)%nat ->
    Dusts_Update boardWidth boardHeight seed h ds = Some (h', ds') ->
    exists d : Dust, h' !! length h = Some d /\ Y (Coords d) = boardHeight + 1.

(** The collection 49 ticks after the start on the 84 x 48 board, every
    draw being 7: five Dusts with y = 0, 1, 2, 3, 4. *)
Definition h49 : Heap :=
  [mkDust (Pt 7 0); mkDust (Pt 7 1); mkDust (Pt 7 2); mkDust (Pt 7 3);
   mkDust (Pt 7 4)].

Definition ds49 : Slice :=
  mkSlice [Some 0%nat; Some 1%nat; Some 2%nat; Some 3%nat; Some 4%nat;
           None; None; None] 5.

(** The same collection after the 50th tick. *)
Definition h50 : Heap :=
  [mkDust (Pt 7 (-1)); mkDust (Pt 7 1); mkDust (Pt 7 1); mkDust (Pt 7 2);
   mkDust (Pt 7 2)].

Definition ds50 : Slice :=
  mkSlice [Some 1%nat; Some 2%nat; Some 3%nat; Some 4%nat; Some 4%nat;
           None; None; None] 4.

(** And after the 51st. *)
Definition h51 : Heap :=
  [mkDust (Pt 7 (-1)); mkDust (Pt 7 0); mkDust (Pt 7 0); mkDust (Pt 7 1);
   mkDust (Pt 7 1); mkDust (Pt 7 48)].

Definition ds51 : Slice :=
  mkSlice [Some 1%nat; Some 2%nat; Some 3%nat; Some 4%nat; Some 5%nat;
           None; None; None] 5.

(** On a board of height [boardHeight], after [boardHeight + 3] ticks
    from the empty collection (that is [boardHeight + 2] calls counted
    from the tick that spawns the second Dust): is the second Dust, at
    address 1, still held at index 0, with y = 0? *)
Definition second_Dust_survives (boardHeight : Z) : bool :=
  match run 84 boardHeight (replicate (Z.to_nat (boardHeight + 3)) 7) [] empty with
  | Some (h, ds) =>
      match h !! 1%nat, elements ds !! 0%nat with
      | Some d, Some (Some a) => (Y (Coords d) =? 0) && (a =? 1)%nat
      | _, _ => false
      end
  | None => false
  end.

(** The collection holds the Dust at address [a]. *)
Definition held (ds : Slice) (a : addr) : Prop :=
  exists j : nat, (j < len ds)%nat /\ array ds !! j = Some (Some a).

(** Between two ticks on a board of height [boardHeight]: the collection
    is well formed and every Dust it holds has its y on the board or on
    the two rows below it. *)
Definition in_flight (boardHeight : Z) (h : Heap) (ds : Slice) : Prop :=
  live h ds /\
  forall (a : addr) (d : Dust), held ds a -> h !! a = Some d ->
    0 <= Y (Coords d) <= boardHeight + 1.

End Particles.

(** ** The assets package *)

Module Assets.
Import GoInt.

(** A Go [error] value, by its message. *)
Definition error := string.

(** The two ways a loader ends: with its value, or in [log.Fatal] /
    [log.Fatalf], which logs and exits the process. *)
Inductive Cause :=
| OpenFailed (name : string) (e : error)
| ReadFailed (e : error)
| UnmarshalFailed (e : error)
| PNGFailed (name : string) (e : error)
| VorbisFailed (name : string) (e : error)
| MusicPlayerFailed (e : error)
| AudioPlayerFailed (e : error).

Inductive result (A : Type) :=
| Ok (a : A)
| Fatal (c : Cause).
Arguments Ok {A} a.
Arguments Fatal {A} c.

Record FramePosition := mkFramePosition { X : Z; Y : Z; W : Z; H : Z }.

Record Frame := mkFrame { Duration : Z; Position : FramePosition }.

Record FrameTags := mkFrameTags
  { Name : string; From : Z; To : Z; Direction : string }.

Definition Frames := list Frame.

Record SpriteMeta := mkSpriteMeta
  { ImageName : string; MetaFrameTags : list FrameTags }.

(** [strconv.Itoa] *)
Definition strconv_Itoa (i : Z) : string := NilZero.string_of_int (Z.to_int i).

(** [l[i]] for a Go [int] index; [None] is the index-out-of-range panic. *)
Definition index {A : Type} (l : list A) (i : Z) : option A :=
  if i <? 0 then None else l !! Z.to_nat i.

(** [variants := 1; if len(v) > 0 { variants = v[0] }] of [AddSound], for
    the variadic arguments [v]. *)
Definition variantCount (v : list Z) : Z :=
  match v with
  | [] => 1
  | v0 :: _ => v0
  end.

Section Backend.

(** The types of the host libraries: [*ebiten.Image], [image.Image],
    [fs.File], [*vorbis.Stream], [*audio.Player], [*audio.Context]. *)
Variables ebiten_Image image_Image File vorbis_Stream audio_Player
  audio_Context : Type.

(** [type SpriteSheet struct]; [Image] is nil until the loader sets it. *)
Record SpriteSheet := mkSpriteSheet
  { Sprite : Frames; Meta : SpriteMeta; Image : option ebiten_Image }.

(** [var ss SpriteSheet] *)
Definition zeroSpriteSheet : SpriteSheet :=
  mkSpriteSheet [] (mkSpriteMeta EmptyString []) None.

(** What [audio.NewPlayer] is given: the decoded stream itself, or the
    stream wrapped by [audio.NewInfiniteLoop(stream, length)]. *)
Inductive Source :=
| Stream (s : vorbis_Stream)
| InfiniteLoop (s : vorbis_Stream) (length : Z).

(** The host functions the loaders call.  [assets_Open] is [Open] of the
    embedded file system [assets]; a function of Go that returns a value
    and an error returns [inr] of the error here, except the two whose
    value the caller may still use. *)
Variable path_Join : list string -> string.
Variable assets_Open : string -> File + error.
Variable ioutil_ReadAll : File -> list Byte.byte * option error.
Variable json_Unmarshal :
  list Byte.byte -> SpriteSheet -> SpriteSheet * option error.
Variable png_Decode : File -> image_Image + error.
Variable ebiten_NewImageFromImage : image_Image -> ebiten_Image.
Variable vorbis_DecodeWithSampleRate : Z -> File -> vorbis_Stream + error.
Variable vorbis_Length : vorbis_Stream -> Z.
Variable audio_NewPlayer : audio_Context -> Source -> audio_Player + error.

(** [func LoadImage(name string) *ebiten.Image] *)
Definition LoadImage (name : string) : result ebiten_Image :=
  match assets_Open name with
  | inr err => Fatal (OpenFailed name err)
  | inl file =>
      match png_Decode file with
      | inr err => Fatal (PNGFailed name err)
      | inl raw => Ok (ebiten_NewImageFromImage raw)
      end
  end.

(** [func loadSprite(name string) *SpriteSheet].  The variable [err] is
    the one of the source: [json.Unmarshal(data, &ss)] is called without
    assigning its result, so the test after it reads the [err] that
    [ioutil.ReadAll] left. *)
Definition loadSprite (name : string) : result SpriteSheet :=
  let name := path_Join ["assets"; "sprites"; name] in
  match assets_Open (name +:+ ".json") with
  | inr err => Fatal (OpenFailed name err)
  | inl file =>
      let '(data, err) := ioutil_ReadAll file in
      match err with
      | Some e => Fatal (ReadFailed e)
      | None =>
          let ss := fst (json_Unmarshal data zeroSpriteSheet) in
          match err with
          | Some e => Fatal (UnmarshalFailed e)
          | None =>
              match LoadImage (name +:+ ".png") with
              | Fatal c => Fatal c
              | Ok img => Ok (mkSpriteSheet (Sprite ss) (Meta ss) (Some img))
              end
          end
      end
  end.

(** [type Sound struct] *)
Record Sound := mkSound
  { Audio : list audio_Player; LastPlayed : Z; Volume : float }.

(** [Sound{}] *)
Definition zeroSound : Sound := mkSound [] 0 0%float.

(** [func LoadSoundFile(name string, sampleRate int) *vorbis.Stream] *)
Definition LoadSoundFile (name : string) (sampleRate : Z)
  : result vorbis_Stream :=
  match assets_Open name with
  | inr err => Fatal (OpenFailed name err)
  | inl file =>
      match vorbis_DecodeWithSampleRate sampleRate file with
      | inr err => Fatal (VorbisFailed name err)
      | inl music => Ok music
      end
  end.

(** [func NewMusicPlayer] *)
Definition NewMusicPlayer (music : vorbis_Stream) (context : audio_Context)
  : result audio_Player :=
  let musicLoop := InfiniteLoop music (vorbis_Length music) in
  match audio_NewPlayer context musicLoop with
  | inr err => Fatal (MusicPlayerFailed err)
  | inl musicPlayer => Ok musicPlayer
  end.

(** [func NewSoundPlayer] *)
Definition NewSoundPlayer (audioFile : vorbis_Stream) (context : audio_Context)
  : result audio_Player :=
  match audio_NewPlayer context (Stream audioFile) with
  | inr err => Fatal (AudioPlayerFailed err)
  | inl audioPlayer => Ok audioPlayer
  end.

(** [func (s *Sound) AddMusic] *)
Definition AddMusic (f : string) (sampleRate : Z) (context : audio_Context)
    (s : Sound) : result Sound :=
  match LoadSoundFile (f +:+ ".ogg") sampleRate with
  | Fatal c => Fatal c
  | Ok music =>
      match NewMusicPlayer music context with
      | Fatal c => Fatal c
      | Ok p => Ok (mkSound (Audio s ++ [p]) (LastPlayed s) (Volume s))
      end
  end.

(** The file name the loop of [AddSound] builds at counter [i]. *)
Definition variantFile (f : string) (variants i : Z) : string :=
  if variants =? 1 then f +:+ ".ogg"
  else f +:+ "-" +:+ strconv_Itoa (wrap (i + 1)) +:+ ".ogg".

(** [for i := 0; i < variants; i++ { ... }] of [AddSound], from counter
    [i] with [n] iterations to go. *)
Fixpoint AddSound_from (n : nat) (i : Z) (f : string) (sampleRate : Z)
    (context : audio_Context) (variants : Z) (s : Sound) : result Sound :=
  match n with
  | O => Ok s
  | S n' =>
      let filename := variantFile f variants i in
      match LoadSoundFile filename sampleRate with
      | Fatal c => Fatal c
      | Ok stream =>
          match NewSoundPlayer stream context with
          | Fatal c => Fatal c
          | Ok p =>
              AddSound_from n' (wrap (i + 1)) f sampleRate context variants
                (mkSound (Audio s ++ [p]) (LastPlayed s) (Volume s))
          end
      end
  end.

(** [func (s *Sound) AddSound(f, sampleRate, context, v ...int)] *)
Definition AddSound (f : string) (sampleRate : Z) (context : audio_Context)
    (v : list Z) (s : Sound) : result Sound :=
  let variants := variantCount v in
  AddSound_from (Z.to_nat variants) 0 f sampleRate context variants s.

(** [func (s *Sound) SetVolume(v float64)] *)
Definition SetVolume (v : float) (s : Sound) : Sound :=
  if (0 <=? v)%float && (v <=? 1)%float
  then mkSound (Audio s) (LastPlayed s) v
  else s.

(** A method call on the player [s.Audio[i]], recorded with the index. *)
Inductive PlayerCall :=
| CallSetVolume (v : float)
| CallRewind
| CallPlay
| CallPause.

Definition event : Type := nat * PlayerCall.

(** [s.Audio[i].m(...)]: panics when [i] is out of range.  The method
    itself is taken to return; ebiten's [SetVolume] does so for a volume
    in [[0, 1]] only, which is why the statements below that a play
    returns are made for pools whose [Volume] is in [[0, 1]]. *)
Definition call (s : Sound) (i : Z) (c : PlayerCall) : option (list event) :=
  match index (Audio s) i with
  | Some _ => Some [(Z.to_nat i, c)]
  | None => None
  end.

(** [func (s *Sound) PlayVariant(i int)]; [None] is a panic. *)
Definition PlayVariant (i : Z) (s : Sound) : option (Sound * list event) :=
  let s := mkSound (Audio s) i (Volume s) in
  t1 ← call s i (CallSetVolume (Volume s));
  t2 ← call s i CallRewind;
  t3 ← call s i CallPlay;
  Some (s, t1 ++ t2 ++ t3).

(** [func (s *Sound) Play()] *)
Definition Play (seed : Z) (s : Sound) : option (Sound * list event) :=
  let length := Z.of_nat (length (Audio s)) in
  if length =? 0 then Some (s, [])
  else if 1 <? length
       then match rand_Intn length seed with
            | Some index => PlayVariant index s
            | None => None
            end
       else PlayVariant 0 s.

(** [func (s *Sound) Pause()] *)
Definition Pause (s : Sound) : option (Sound * list event) :=
  t ← call s (LastPlayed s) CallPause;
  Some (s, t).

(** The pools on which neither [Play] nor [PlayVariant] was ever called:
    a fresh [Sound] and what the other methods make of one. *)
Inductive unplayed : Sound -> Prop :=
| unplayed_zero : unplayed zeroSound
| unplayed_AddMusic f sampleRate context s s' :
    unplayed s -> AddMusic f sampleRate context s = Ok s' -> unplayed s'
| unplayed_AddSound f sampleRate context v s s' :
    unplayed s -> AddSound f sampleRate context v s = Ok s' -> unplayed s'
| unplayed_SetVolume v s :
    unplayed s -> unplayed (SetVolume v s)
| unplayed_Pause s s' t :
    unplayed s -> Pause s = Some (s', t) -> unplayed s'.

(** What [PlayVariant] makes of the pool and asks of the player at index
    [i]: the current volume, a rewind, the start. *)
Definition plays (i : nat) (s : Sound) : Sound * list event :=
  (mkSound (Audio s) (Z.of_nat i) (Volume s),
   [(i, CallSetVolume (Volume s)); (i, CallRewind); (i, CallPlay)]).

(** The file names of a sound with [variants] variants, in the words of
    the naming convention: the bare name for exactly one variant, the
    names with the 1-based suffixes otherwise. *)
Definition spec_variantNames (f : string) (variants : Z) : list string :=
  if variants =? 1 then [f +:+ ".ogg"]
  else (fun k : nat => f +:+ "-" +:+ strconv_Itoa (Z.of_nat k) +:+ ".ogg")
         <$> seq 1 (Z.to_nat variants).

(** The file names the loop of [AddSound] opens in its [n] iterations
    from counter [i]. *)
Fixpoint names_from (f : string) (variants : Z) (n : nat) (i : Z) : list string :=
  match n with
  | O => []
  | S n' => variantFile f variants i :: names_from f variants n' (wrap (i + 1))
  end.

(** The reading under which [Pause] on a pool that was never played
    always pauses variant 0 and never fails. *)
Definition Pause_before_play_pauses_variant_0 : Prop :=
  forall s : Sound, unplayed s ->
    LastPlayed s = 0 /\ Pause s = Some (s, [(0%nat, CallPause)]).

(** [p] is a player, bound to [context], of the clip in file [name],
    decoded at [sampleRate] and not wrapped in a loop. *)
Definition clip_player (sampleRate : Z) (context : audio_Context)
    (name : string) (p : audio_Player) : Prop :=
  exists (file : File) (stream : vorbis_Stream),
    assets_Open name = inl file /\
    vorbis_DecodeWithSampleRate sampleRate file = inl stream /\
    audio_NewPlayer context (Stream stream) = inl p.

(** [//go:embed *.png] over [var assets embed.FS]: the files of [assets]
    are the files of the package directory whose name matches [*.png]
    (the star stands for characters other than the separator); beside
    them [Open] opens the root directory ["."] only. *)
Definition embeds_png_only : Prop :=
  forall (name : string) (file : File), assets_Open name = inl file ->
    name = "." \/
    exists base : string,
      name = base +:+ ".png" /\ String.index 0 "/" base = None.

(** The clip in file [name] does not load, and [c] is what [log.Fatalf]
    reports: the file does not open, or does not decode, or its stream
    does not bind to a player. *)
Definition clip_fails (sampleRate : Z) (context : audio_Context)
    (name : string) (c : Cause) : Prop :=
  (exists e : error, assets_Open name = inr e /\ c = OpenFailed name e) \/
  (exists (file : File) (e : error),
     assets_Open name = inl file /\
     vorbis_DecodeWithSampleRate sampleRate file = inr e /\
     c = VorbisFailed name e) \/
  (exists (file : File) (stream : vorbis_Stream) (e : error),
     assets_Open name = inl file /\
     vorbis_DecodeWithSampleRate sampleRate file = inl stream /\
     audio_NewPlayer context (Stream stream) = inr e /\
     c = AudioPlayerFailed e).

(** The pools a program gets through the methods alone: [Sound{}], and
    what a method that returns makes of such a pool. *)
Inductive pool : Sound -> Prop :=
| pool_zero : pool zeroSound
| pool_AddMusic f sampleRate context s s' :
    pool s -> AddMusic f sampleRate context s = Ok s' -> pool s'
| pool_AddSound f sampleRate context v s s' :
    pool s -> AddSound f sampleRate context v s = Ok s' -> pool s'
| pool_SetVolume v s :
    pool s -> pool (SetVolume v s)
| pool_Play seed s s' t :
    pool s -> Play seed s = Some (s', t) -> pool s'
| pool_PlayVariant i s s' t :
    pool s -> PlayVariant i s = Some (s', t) -> pool s'
| pool_Pause s s' t :
    pool s -> Pause s = Some (s', t) -> pool s'.

End Backend.

Arguments clip_fails {File vorbis_Stream audio_Player audio_Context} _ _ _
  sampleRate context name c.
Arguments embeds_png_only {File} _.
Arguments pool {File vorbis_Stream audio_Player audio_Context} _ _ _ _ s.
Arguments Ok {A} a.
Arguments Fatal {A} c.
Arguments mkSpriteSheet {ebiten_Image} Sprite Meta Image.
Arguments Sprite {ebiten_Image} s.
Arguments Meta {ebiten_Image} s.
Arguments Image {ebiten_Image} s.
Arguments zeroSpriteSheet {ebiten_Image}.
Arguments Stream {vorbis_Stream} s.
Arguments InfiniteLoop {vorbis_Stream} s length.
Arguments mkSound {audio_Player} Audio LastPlayed Volume.
Arguments Audio {audio_Player} s.
Arguments LastPlayed {audio_Player} s.
Arguments Volume {audio_Player} s.
Arguments zeroSound {audio_Player}.
Arguments SetVolume {audio_Player} v s.
Arguments call {audio_Player} s i c.
Arguments PlayVariant {audio_Player} i s.
Arguments Play {audio_Player} seed s.
Arguments Pause {audio_Player} s.
Arguments plays {audio_Player} i s.
Arguments LoadImage {ebiten_Image image_Image File} _ _ _ name.
Arguments loadSprite {ebiten_Image image_Image File} _ _ _ _ _ _ name.
Arguments LoadSoundFile {File vorbis_Stream} _ _ name sampleRate.
Arguments NewMusicPlayer {vorbis_Stream audio_Player audio_Context} _ _ music context.
Arguments NewSoundPlayer {vorbis_Stream audio_Player audio_Context} _ audioFile context.
Arguments AddMusic {File vorbis_Stream audio_Player audio_Context} _ _ _ _
  f sampleRate context s.
Arguments AddSound_from {File vorbis_Stream audio_Player audio_Context} _ _ _
  n i f sampleRate context variants s.
Arguments AddSound {File vorbis_Stream audio_Player audio_Context} _ _ _
  f sampleRate context v s.
Arguments clip_player {File vorbis_Stream audio_Player audio_Context} _ _ _
  sampleRate context name p.
Arguments unplayed {File vorbis_Stream audio_Player audio_Context} _ _ _ _ s.
Arguments Pause_before_play_pauses_variant_0
  {File vorbis_Stream audio_Player audio_Context} _ _ _ _.

(** A small asset set and host to run the loaders on: files are their
    bytes, images and streams the bytes they were decoded from, a player
    the source it plays. *)
Module Fixture.

(** The pieces of a path between its separators. *)
Fixpoint split_slash (s : string) : list string :=
  match s with
  | EmptyString => [EmptyString]
  | String c s' =>
      if Ascii.eqb c "/"%char then EmptyString :: split_slash s'
      else match split_slash s' with
           | [] => [String c EmptyString]
           | piece :: pieces => String c piece :: pieces
           end
  end.

(** The elements [path.Clean] keeps, the last one first in [out]: empty
    and ["."] elements go, a [".."] takes back the element before it, and
    stays only in front of a path that is not rooted. *)
Fixpoint clean_elements (rooted : bool) (pieces out : list string) : list string :=
  match pieces with
  | [] => out
  | piece :: rest =>
      if String.eqb piece "" || String.eqb piece "."
      then clean_elements rooted rest out
      else if String.eqb piece ".."
      then match out with
           | top :: out' =>
               if String.eqb top ".."
               then clean_elements rooted rest (".." :: out)
               else clean_elements rooted rest out'
           | [] =>
               if rooted then clean_elements rooted rest []
               else clean_elements rooted rest [".."]
           end
      else clean_elements rooted rest (piece :: out)
  end.

(** [path.Clean] *)
Definition path_Clean (path : string) : string :=
  if String.eqb path "" then "."
  else
    let rooted := String.prefix "/" path in
    let body :=
      String.concat "/" (rev (clean_elements rooted (split_slash path) [])) in
    if rooted then "/" +:+ body
    else if String.eqb body "" then "." else body.

(** [path.Join]: the empty string when every element is empty, otherwise
    the elements from the first non-empty one on, joined and cleaned. *)
Fixpoint path_Join (elem : list string) : string :=
  match elem with
  | [] => ""
  | e :: rest =>
      if String.eqb e "" then path_Join rest
      else path_Clean (String.concat "/" (e :: rest))
  end.

(** An asset set as [//go:embed *.png] makes one: the root directory and
    one image of the package directory. *)
Definition embedded_Open (name : string) : list Byte.byte + error :=
  if String.eqb name "." then inl []
  else if String.eqb name "hero.png" then inl [Byte.x89; Byte.x50]
  else inr "file does not exist".

(** A description that is cut off after its opening brace, next to its
    image, and the three clips of a sound with variants. *)
Definition assets_Open (name : string) : list Byte.byte + error :=
  if String.eqb name "assets/sprites/hero.json" then inl [Byte.x7b]
  else if String.eqb name "assets/sprites/hero.png" then inl [Byte.x89; Byte.x50]
  else if String.eqb name "step-1.ogg" then inl [Byte.x01]
  else if String.eqb name "step-2.ogg" then inl [Byte.x02]
  else if String.eqb name "step-3.ogg" then inl [Byte.x03]
  else inr "file does not exist".

Definition ioutil_ReadAll (file : list Byte.byte) : list Byte.byte * option error :=
  (file, None).

(** A decoder that accepts the empty object only and reports every other
    text as malformed, leaving the target as it was. *)
Definition json_Unmarshal (data : list Byte.byte)
    (v : SpriteSheet (list Byte.byte))
  : SpriteSheet (list Byte.byte) * option error :=
  match data with
  | [Byte.x7b; Byte.x7d] => (v, None)
  | _ => (v, Some "unexpected end of JSON input")
  end.

Definition png_Decode (file : list Byte.byte) : list Byte.byte + error := inl file.

Definition ebiten_NewImageFromImage (raw : list Byte.byte) : list Byte.byte := raw.

Definition vorbis_DecodeWithSampleRate (sampleRate : Z) (file : list Byte.byte)
  : list Byte.byte + error := inl file.

Definition vorbis_Length (stream : list Byte.byte) : Z := Z.of_nat (length stream).

Definition audio_NewPlayer (context : unit) (src : Source (list Byte.byte))
  : Source (list Byte.byte) + error := inl src.

(** The pool of the three clips of the sound ["step"]. *)
Definition step : Sound (Source (list Byte.byte)) :=
  mkSound [Stream [Byte.x01]; Stream [Byte.x02]; Stream [Byte.x03]] 0 0%float.

End Fixture.

End Assets.

(** ** main.go: Game and Player *)

Module MainLoop.
Import GoInt.

(** [type Player struct] *)
Record Player := mkPlayer { Coords : Particles.Point; Chute : bool }.

(** [func (p *Player) Pull()] *)
Definition Pull (p : Player) : Player := mkPlayer (Coords p) (negb (Chute p)).

(** [type Game struct].  [GPlayer] is the field [Player], a pointer
    ([None] is nil); [Tick] is an [int64]. *)
Record Game := mkGame
  { Size : Particles.Point;
    GPlayer : option Player;
    Dusts : Particles.Slice;
    Tick : Z }.

(** What ebiten reports of the keyboard during one tick:
    [ebiten.IsKeyPressed(ebiten.KeyQ)],
    [inpututil.IsKeyJustPressed(ebiten.KeyF)] and
    [inpututil.IsKeyJustPressed(ebiten.KeySpace)]. *)
Record Keys := mkKeys { KeyQ : bool; KeyF : bool; KeySpace : bool }.

(** What a tick works on: ebiten's full-screen flag, the heap of the
    Dusts, the Game. *)
Record World := mkWorld
  { fullscreen : bool; heap : Particles.Heap; game : Game }.

(** [func (g *Game) Layout] *)
Definition Layout (g : Game) (outsideWidth outsideHeight : Z) : Z * Z :=
  (Particles.X (Size g), Particles.Y (Size g)).

Section Board.

(** [nokia.GameSize.X] and [nokia.GameSize.Y] *)
Variables boardWidth boardHeight : Z.

(** [func (g *Game) Update() error]: [None] is a panic, otherwise the
    world after the call and the error returned. *)
Definition Game_Update (keys : Keys) (seed : Z) (w : World)
  : option (World * option string) :=
  let g := game w in
  let g := mkGame (Size g) (GPlayer g) (Dusts g) (wrap (Tick g + 1)) in
  if KeyQ keys
  then Some (mkWorld (fullscreen w) (heap w) g, Some "game quit by player")
  else
    let fs := if KeyF keys
              then (if fullscreen w then false else true)
              else fullscreen w in
    match GPlayer g with
    | None => None
    | Some p =>
        let updated :=
          if Chute p
          then (if Z.rem (Tick g) 2 =? 0
                then Particles.Dusts_Update boardWidth boardHeight seed
                       (heap w) (Dusts g)
                else Some (heap w, Dusts g))
          else Particles.Dusts_Update boardWidth boardHeight seed
                 (heap w) (Dusts g) in
        match updated with
        | None => None
        | Some (h', ds') =>
            let p' := if KeySpace keys then Pull p else p in
            Some (mkWorld fs h' (mkGame (Size g) (Some p') ds' (Tick g)), None)
        end
    end.

(** The loop of [ebiten.RunGame], as far as [Update] goes: one call per
    tick, with the keys and the generator draw of that tick, until a call
    returns an error. *)
Fixpoint Game_run (inputs : list (Keys * Z)) (w : World)
  : option (World * option string) :=
  match inputs with
  | [] => Some (w, None)
  | (keys, seed) :: rest =>
      match Game_Update keys seed w with
      | None => None
      | Some (w', Some err) => Some (w', Some err)
      | Some (w', None) => Game_run rest w'
      end
  end.

(** The game [main] builds, in a window whose full-screen flag is [fs]. *)
Definition initial (fs : bool) : World :=
  mkWorld fs []
    (mkGame (Particles.Pt boardWidth boardHeight)
       (Some (mkPlayer (Particles.Pt (boardWidth ÷ 2) (boardHeight ÷ 2)) false))
       Particles.empty 0).

End Board.

(** The number of [Update] calls the loop makes on these inputs when no
    call panics: one per input, up to and including the first one with Q
    held. *)
Fixpoint calls (inputs : list (Keys * Z)) : nat :=
  match inputs with
  | [] => 0
  | (keys, _) :: rest => if KeyQ keys then 1 else S (calls rest)
  end.

End MainLoop.

(** * Properties *)

(** ** Go's [int] *)

Module GoIntFacts.
Import GoInt.

Lemma wrap_id (z : Z) : in_int z -> wrap z = z.
Proof.
  unfold in_int, int_min, int_max, wrap. intros Hz.
  rewrite Z.mod_small by lia. lia.
Qed.

Lemma wrap_in_int (z : Z) : in_int (wrap z).
Proof.
  unfold in_int, int_min, int_max, wrap.
  pose proof (Z.mod_pos_bound (z + 2 ^ 63) (2 ^ 64)). lia.
Qed.

Lemma rand_Intn_range (n seed r : Z) : rand_Intn n seed = Some r -> 0 <= r < n.
Proof.
  unfold rand_Intn. destruct (Z.leb_spec n 0); [discriminate|].
  intros [= <-]. apply Z.mod_pos_bound. lia.
Qed.

Lemma rand_Intn_pos (n seed : Z) : 0 < n -> rand_Intn n seed = Some (seed mod n).
Proof. unfold rand_Intn. intros Hn. destruct (Z.leb_spec n 0); [lia|done]. Qed.

End GoIntFacts.

(** ** The particle manager *)

Module ParticleFacts.
Import GoInt GoIntFacts Particles.

(** *** Slices *)

Lemma append1_len (s : Slice) (p : option addr) : len (append1 s p) = S (len s).
Proof. unfold append1. by destruct (len s <? cap s)%nat. Qed.

Lemma append1_lookup_old (s : Slice) (p : option addr) (j : nat) :
  (len s <= cap s)%nat -> (j < len s)%nat ->
  array (append1 s p) !! j = array s !! j.
Proof.
  unfold append1, cap. intros Hc Hj.
  destruct (Nat.ltb_spec (len s) (length (array s))); simpl.
  - apply list_lookup_insert_ne. lia.
  - rewrite lookup_app_l by (rewrite length_take; lia).
    apply lookup_take_lt. lia.
Qed.

Lemma append1_lookup_new (s : Slice) (p : option addr) :
  (len s <= cap s)%nat -> array (append1 s p) !! len s = Some p.
Proof.
  unfold append1, cap. intros Hc.
  destruct (Nat.ltb_spec (len s) (length (array s))); simpl.
  - apply list_lookup_insert_eq. lia.
  - rewrite lookup_app_r by (rewrite length_take; lia).
    rewrite length_take, Nat.min_l by lia. by rewrite Nat.sub_diag.
Qed.

Lemma append1_cap (s : Slice) (p : option addr) :
  (len s <= cap s)%nat -> (len (append1 s p) <= cap (append1 s p))%nat.
Proof.
  unfold append1, cap, newcap. intros Hc.
  destruct (Nat.ltb_spec (len s) (length (array s))); simpl.
  - rewrite length_insert. lia.
  - rewrite length_app, length_take. simpl. lia.
Qed.

Lemma remove_at_len (s s' : Slice) (i : nat) :
  remove_at s i = Some s' -> len s' = (len s - 1)%nat.
Proof.
  unfold remove_at.
  destruct ((i <=? cap s)%nat && (i + 1 <=? len s)%nat); [|discriminate].
  by intros [= <-].
Qed.

Lemma remove_at_cap (s s' : Slice) (i : nat) :
  remove_at s i = Some s' -> (len s <= cap s)%nat -> cap s' = cap s.
Proof.
  unfold remove_at, cap.
  destruct (Nat.leb_spec i (length (array s))); [|discriminate].
  destruct (Nat.leb_spec (i + 1) (len s)); [|discriminate].
  intros [= <-] Hc. simpl.
  rewrite !length_app, !length_take, !length_drop. lia.
Qed.

Lemma remove_at_lookup (s s' : Slice) (i j : nat) :
  remove_at s i = Some s' -> (len s <= cap s)%nat -> (j < len s')%nat ->
  array s' !! j = array s !! (if decide (j < i)%nat then j else S j).
Proof.
  unfold remove_at, cap.
  destruct (Nat.leb_spec i (length (array s))); [|discriminate].
  destruct (Nat.leb_spec (i + 1) (len s)); [|discriminate].
  intros [= <-] Hc. simpl. intros Hj.
  destruct (decide (j < i)%nat).
  - rewrite lookup_app_l by (rewrite length_take; lia).
    apply lookup_take_lt. lia.
  - rewrite lookup_app_r by (rewrite length_take; lia).
    rewrite length_take, Nat.min_l by lia.
    rewrite lookup_app_l by (rewrite length_take, length_drop; lia).
    rewrite lookup_take_lt by lia. rewrite lookup_drop. f_equal. lia.
Qed.

(** *** Well-formed collections *)

Lemma live_heap (h h' : Heap) (ds : Slice) :
  live h ds ->
  (forall a : addr, is_Some (h !! a) -> is_Some (h' !! a)) ->
  live h' ds.
Proof.
  intros (Hc & Hheld & Hdist) Hh. split; [done|]. split; [|done].
  intros j Hj. destruct (Hheld j Hj) as (a & d & Hja & Ha).
  destruct (Hh a) as [d' Hd']; [by exists d|]. by exists a, d'.
Qed.

Lemma live_remove_at (h : Heap) (ds ds' : Slice) (i : nat) :
  live h ds -> remove_at ds i = Some ds' -> live h ds'.
Proof.
  intros (Hc & Hheld & Hdist) Hr.
  pose proof (remove_at_len _ _ _ Hr) as Hlen.
  pose proof (remove_at_cap _ _ _ Hr Hc) as Hcap.
  split; [lia|]. split.
  - intros j Hj. rewrite (remove_at_lookup _ _ _ _ Hr Hc Hj).
    apply Hheld. destruct (decide (j < i)%nat); lia.
  - intros j j' a Hj Hj'.
    rewrite (remove_at_lookup _ _ _ j Hr Hc Hj), (remove_at_lookup _ _ _ j' Hr Hc Hj').
    intros Hja Hj'a.
    assert ((if decide (j < i)%nat then j else S j)
            = (if decide (j' < i)%nat then j' else S j')) as Heq.
    { apply (Hdist _ _ a); [| |done|done];
        [destruct (decide (j < i)%nat)|destruct (decide (j' < i)%nat)]; lia. }
    destruct (decide (j < i)%nat); destruct (decide (j' < i)%nat); lia.
Qed.

Lemma live_append1 (h : Heap) (ds : Slice) (d : Dust) :
  live h ds -> live (h ++ [d]) (append1 ds (Some (length h))).
Proof.
  intros (Hc & Hheld & Hdist).
  assert (Hold : forall (j : nat) (a : addr), (j < len ds)%nat ->
            array ds !! j = Some (Some a) -> (a < length h)%nat).
  { intros j a Hj Hja. destruct (Hheld j Hj) as (b & e & Hjb & Hb).
    assert (a = b) by congruence. subst b. by eapply lookup_lt_Some. }
  split; [by apply append1_cap|]. rewrite append1_len. split.
  - intros j Hj. destruct (decide (j = len ds)) as [->|Hne].
    + exists (length h), d. split; [by apply append1_lookup_new|].
      rewrite lookup_app_r by lia. by rewrite Nat.sub_diag.
    + destruct (Hheld j ltac:(lia)) as (a & e & Hja & Ha).
      exists a, e. split; [by rewrite append1_lookup_old by (done || lia)|].
      by apply lookup_app_l_Some.
  - intros j j' a Hj Hj' Hja Hj'a.
    destruct (decide (j = len ds)) as [->|Hne];
      destruct (decide (j' = len ds)) as [->|Hne']; [done| | |].
    + rewrite append1_lookup_new in Hja by done.
      rewrite append1_lookup_old in Hj'a by (done || lia).
      assert (a = length h) by congruence. subst a.
      pose proof (Hold j' _ ltac:(lia) Hj'a). lia.
    + rewrite append1_lookup_new in Hj'a by done.
      rewrite append1_lookup_old in Hja by (done || lia).
      assert (a = length h) by congruence. subst a.
      pose proof (Hold j _ ltac:(lia) Hja). lia.
    + rewrite append1_lookup_old in Hja by (done || lia).
      rewrite append1_lookup_old in Hj'a by (done || lia).
      apply (Hdist j j' a); [lia|lia|done|done].
Qed.

Lemma range_from_live (n : nat) : forall (i : nat) (h h' : Heap) (ds ds' : Slice),
  range_from n i h ds = Some (h', ds') -> live h ds -> live h' ds'.
Proof.
  induction n as [|n IH]; intros i h h' ds ds'; simpl.
  - by intros [= <- <-].
  - destruct (array ds !! i) as [[a|]|]; try discriminate.
    destruct (h !! a) as [d|] eqn:Ha; try discriminate.
    intros Hrun Hlive.
    assert (live (<[a := Dust_Update d]> h) ds) as Hlive1.
    { apply (live_heap h); [done|]. intros b [e Hb].
      apply lookup_lt_is_Some. rewrite length_insert. by eapply lookup_lt_Some. }
    destruct (_ <? 0).
    + destruct (remove_at ds i) as [ds1|] eqn:Hr; try discriminate.
      eapply IH; [exact Hrun|]. by eapply live_remove_at.
    + by eapply IH.
Qed.

Section Board.

Variables boardWidth boardHeight : Z.

Local Abbreviation spawn := (Particles.spawn boardWidth boardHeight).
Local Abbreviation Dusts_Update := (Particles.Dusts_Update boardWidth boardHeight).
Local Abbreviation run := (Particles.run boardWidth boardHeight).

(** *** The capacity *)

Lemma spawn_len (seed : Z) (h h1 : Heap) (ds ds1 : Slice) :
  spawn seed h ds = Some (h1, ds1) ->
  (len ds <= maxDusts)%nat -> (len ds1 <= maxDusts)%nat.
Proof.
  unfold spawn, maxDusts.
  destruct (Nat.ltb_spec (len ds) 5).
  - destruct (rand_Intn boardWidth seed); [|discriminate].
    intros [= <- <-] _. rewrite append1_len. lia.
  - by intros [= <- <-].
Qed.

Lemma range_from_len (n i : nat) (h h' : Heap) (ds ds' : Slice) :
  range_from n i h ds = Some (h', ds') -> (len ds' <= len ds)%nat.
Proof.
  revert i h ds. induction n as [|n IH]; intros i h ds; simpl.
  - by intros [= <- <-].
  - destruct (array ds !! i) as [[a|]|]; try discriminate.
    destruct (h !! a) as [d|]; try discriminate.
    destruct (_ <? 0).
    + destruct (remove_at ds i) as [ds1|] eqn:Hr; try discriminate.
      intros Hrun. apply IH in Hrun. apply remove_at_len in Hr. lia.
    + apply IH.
Qed.

Lemma Dusts_Update_len (seed : Z) (h h' : Heap) (ds ds' : Slice) :
  Dusts_Update seed h ds = Some (h', ds') ->
  (len ds <= maxDusts)%nat -> (len ds' <= maxDusts)%nat.
Proof.
  unfold Particles.Dusts_Update.
  destruct (spawn seed h ds) as [[h1 ds1]|] eqn:Hs; [|discriminate].
  intros Hr Hl. apply range_from_len in Hr.
  pose proof (spawn_len _ _ _ _ _ Hs Hl). lia.
Qed.

Lemma run_len (seeds : list Z) (h h' : Heap) (ds ds' : Slice) :
  run seeds h ds = Some (h', ds') ->
  (len ds <= maxDusts)%nat -> (len ds' <= maxDusts)%nat.
Proof.
  revert h ds. induction seeds as [|seed rest IH]; intros h ds; simpl.
  - by intros [= <- <-].
  - destruct (Dusts_Update seed h ds) as [[h1 ds1]|] eqn:Hu; [|discriminate].
    intros Hrun Hl. eapply IH; [exact Hrun|]. eapply Dusts_Update_len; eauto.
Qed.

(** C5: whatever the sequence of ticks run from the empty collection, and
    whatever the generator drew at each, the collection that the next tick
    starts from holds at most [maxDusts = 5] entries. *)
Theorem Dusts_never_exceed_capacity (seeds : list Z) (h : Heap) (ds : Slice) :
  run seeds [] empty = Some (h, ds) ->
  (len ds <= 5)%nat /\ (length (elements ds) <= 5)%nat.
Proof.
  intros Hrun. apply run_len in Hrun; [|unfold maxDusts; simpl; lia].
  unfold maxDusts in Hrun. split; [done|].
  unfold elements. rewrite length_take. lia.
Qed.

Lemma Dusts_Update_live (seed : Z) (h h' : Heap) (ds ds' : Slice) :
  Dusts_Update seed h ds = Some (h', ds') -> live h ds -> live h' ds'.
Proof.
  unfold Particles.Dusts_Update, Particles.spawn.
  destruct (len ds <? maxDusts)%nat.
  - destruct (rand_Intn boardWidth seed) as [dsX|]; [|discriminate].
    intros Hr Hlive. eapply range_from_live; [exact Hr|]. by apply live_append1.
  - apply range_from_live.
Qed.

(** Every collection that a sequence of ticks reaches from the empty one
    holds allocated Dusts, each once. *)
Lemma run_live (seeds : list Z) : forall (h h' : Heap) (ds ds' : Slice),
  run seeds h ds = Some (h', ds') -> live h ds -> live h' ds'.
Proof.
  induction seeds as [|seed rest IH]; intros h h' ds ds'; simpl.
  - by intros [= <- <-].
  - destruct (Dusts_Update seed h ds) as [[h1 ds1]|] eqn:Hu; [|discriminate].
    intros Hrun Hlive. eapply IH; [exact Hrun|]. by eapply Dusts_Update_live.
Qed.

(** *** The x-coordinate *)

Lemma same_X_refl (h : Heap) : same_X h h.
Proof. intros a d Ha. by exists d. Qed.

Lemma same_X_trans (h1 h2 h3 : Heap) : same_X h1 h2 -> same_X h2 h3 -> same_X h1 h3.
Proof.
  intros H12 H23 a d Ha.
  destruct (H12 a d Ha) as (d2 & Ha2 & Hx2).
  destruct (H23 a d2 Ha2) as (d3 & Ha3 & Hx3).
  exists d3. split; [done|congruence].
Qed.

Lemma same_X_advance (h : Heap) (a : addr) (d : Dust) :
  h !! a = Some d -> same_X h (<[a := Dust_Update d]> h).
Proof.
  intros Ha b e Hb. destruct (decide (a = b)) as [->|Hne].
  - exists (Dust_Update d). split.
    + apply list_lookup_insert_eq. by eapply lookup_lt_Some.
    + simpl. congruence.
  - exists e. split; [|done]. by rewrite list_lookup_insert_ne.
Qed.

Lemma range_from_same_X (n i : nat) (h h' : Heap) (ds ds' : Slice) :
  range_from n i h ds = Some (h', ds') -> same_X h h'.
Proof.
  revert i h ds. induction n as [|n IH]; intros i h ds; simpl.
  - intros [= <- <-]. apply same_X_refl.
  - destruct (array ds !! i) as [[a|]|]; try discriminate.
    destruct (h !! a) as [d|] eqn:Ha; try discriminate.
    intros Hrun. apply same_X_trans with (<[a := Dust_Update d]> h).
    { by apply same_X_advance. }
    destruct (_ <? 0).
    + destruct (remove_at ds i) as [ds1|]; try discriminate. by eapply IH.
    + by eapply IH.
Qed.

Lemma Dusts_Update_same_X (seed : Z) (h h' : Heap) (ds ds' : Slice) :
  Dusts_Update seed h ds = Some (h', ds') -> same_X h h'.
Proof.
  unfold Particles.Dusts_Update, Particles.spawn.
  destruct (len ds <? maxDusts)%nat.
  - destruct (rand_Intn boardWidth seed) as [dsX|]; [|discriminate].
    intros Hr. eapply same_X_trans; [|by eapply range_from_same_X].
    intros a d Ha. exists d. split; [|done]. by apply lookup_app_l_Some.
  - apply range_from_same_X.
Qed.

Lemma run_same_X (seeds : list Z) (h h' : Heap) (ds ds' : Slice) :
  run seeds h ds = Some (h', ds') -> same_X h h'.
Proof.
  revert h ds. induction seeds as [|seed rest IH]; intros h ds; simpl.
  - intros [= <- <-]. apply same_X_refl.
  - destruct (Dusts_Update seed h ds) as [[h1 ds1]|] eqn:Hu; [|discriminate].
    intros Hrun. eapply same_X_trans; [by eapply Dusts_Update_same_X|by eapply IH].
Qed.

(** C10: [Dust.Update] leaves x as it is and replaces y by y - 1 (in Go's
    [int]), and a Dust that lives at some address keeps its x through any
    number of per-tick [Update]s of the collection, whichever Dusts they
    spawn or remove. *)
Theorem Dust_x_unchanged (seeds : list Z) (h h' : Heap) (ds ds' : Slice)
    (a : addr) (d : Dust) :
  run seeds h ds = Some (h', ds') ->
  h !! a = Some d ->
  Coords (Dust_Update d) = Pt (X (Coords d)) (wrap (Y (Coords d) - 1)) /\
  (in_int (Y (Coords d) - 1) -> Y (Coords (Dust_Update d)) = Y (Coords d) - 1) /\
  exists d', h' !! a = Some d' /\ X (Coords d') = X (Coords d).
Proof.
  intros Hrun Ha. split; [done|]. split.
  - intros Hy. simpl. by apply wrap_id.
  - by eapply run_same_X.
Qed.

(** *** A pass in which no Dust expires *)

Lemma range_from_no_expiry (n : nat) : forall (i : nat) (h : Heap) (ds : Slice),
  (forall j : nat, (i <= j < i + n)%nat ->
     exists (a : addr) (d : Dust),
       array ds !! j = Some (Some a) /\ h !! a = Some d /\
       1 <= Y (Coords d) <= int_max) ->
  (forall (j j' : nat) (a : addr), (i <= j < i + n)%nat -> (i <= j' < i + n)%nat ->
     array ds !! j = Some (Some a) -> array ds !! j' = Some (Some a) -> j = j') ->
  exists h' : Heap,
    range_from n i h ds = Some (h', ds) /\
    (forall (j : nat) (a : addr) (d : Dust), (i <= j < i + n)%nat ->
       array ds !! j = Some (Some a) -> h !! a = Some d ->
       h' !! a = Some (Dust_Update d)) /\
    (forall a : addr,
       (forall j : nat, (i <= j < i + n)%nat -> array ds !! j <> Some (Some a)) ->
       h' !! a = h !! a).
Proof.
  induction n as [|n IH]; intros i h ds Hdust Hdist.
  - exists h. split; [done|]. split; [intros; lia|done].
  - destruct (Hdust i ltac:(lia)) as (a & d & Hi & Ha & Hy).
    assert (Hw : wrap (Y (Coords d) - 1) = Y (Coords d) - 1).
    { apply wrap_id. unfold in_int, int_min, int_max in *. lia. }
    destruct (IH (S i) (<[a := Dust_Update d]> h) ds) as (h' & Hrun & Hadv & Hframe).
    + intros j Hj. destruct (Hdust j ltac:(lia)) as (b & e & Hjb & Hb & Hyb).
      exists b, e. split; [done|]. split; [|done].
      rewrite list_lookup_insert_ne; [done|]. intros ->.
      assert (i = j) by (apply (Hdist i j b); [lia|lia|done|done]). lia.
    + intros j j' b Hj Hj'. apply Hdist; lia.
    + exists h'. split.
      { simpl. rewrite Hi, Ha. simpl. rewrite Hw.
        destruct (Z.ltb_spec (Y (Coords d) - 1) 0); [lia|done]. }
      split.
      * intros j b e Hj Hjb Hb. destruct (decide (j = i)) as [->|Hne].
        -- assert (b = a) by congruence. subst b.
           assert (e = d) by congruence. subst e.
           rewrite Hframe.
           { apply list_lookup_insert_eq. by eapply lookup_lt_Some. }
           intros j' Hj' Hc.
           assert (i = j') by (apply (Hdist i j' a); [lia|lia|done|done]). lia.
        -- apply (Hadv j); [lia|done|].
           rewrite list_lookup_insert_ne; [done|]. intros ->.
           assert (i = j) by (apply (Hdist i j b); [lia|lia|done|done]). lia.
      * intros b Hb. rewrite Hframe.
        { apply list_lookup_insert_ne. intros ->. by apply (Hb i); [lia|]. }
        intros j Hj. apply Hb. lia.
Qed.

(** C3 (as amended): the spawn step runs once, before the pass over the
    collection, and the pass includes the Dust just spawned.  In a tick in
    which no Dust expires (every Dust held has y >= 1), the new Dust is
    appended at index [len], advanced exactly once in that same tick, and
    so has y = [boardHeight] right after the [Update] that spawned it. *)
Theorem spawned_Dust_advanced_same_tick (seed : Z) (h : Heap) (ds : Slice) :
  0 < boardWidth ->
  0 <= boardHeight < int_max ->
  live h ds ->
  (len ds < maxDusts)%nat ->
  (forall (j : nat) (a : addr) (d : Dust), (j < len ds)%nat ->
     array ds !! j = Some (Some a) -> h !! a = Some d ->
     1 <= Y (Coords d) <= int_max) ->
  spawn seed h ds =
    Some (h ++ [mkDust (Pt (seed mod boardWidth) (boardHeight + 1))],
          append1 ds (Some (length h))) /\
  exists h' : Heap,
    Dusts_Update seed h ds = Some (h', append1 ds (Some (length h))) /\
    array (append1 ds (Some (length h))) !! len ds = Some (Some (length h)) /\
    h' !! length h = Some (mkDust (Pt (seed mod boardWidth) boardHeight)).
Proof.
  intros HW HH (Hcap & Hheld & Hdist) Hlen Hys.
  assert (Hspawn : spawn seed h ds =
    Some (h ++ [mkDust (Pt (seed mod boardWidth) (boardHeight + 1))],
          append1 ds (Some (length h)))).
  { unfold Particles.spawn.
    destruct (Nat.ltb_spec (len ds) maxDusts); [|lia].
    rewrite rand_Intn_pos by done. rewrite wrap_id; [done|].
    unfold in_int, int_min, int_max in *. lia. }
  split; [done|].
  unfold Particles.Dusts_Update. rewrite Hspawn.
  set (fresh := mkDust (Pt (seed mod boardWidth) (boardHeight + 1))).
  set (ds1 := append1 ds (Some (length h))).
  assert (Hnew : array ds1 !! len ds = Some (Some (length h)))
    by (by apply append1_lookup_new).
  assert (Hfresh : (h ++ [fresh]) !! length h = Some fresh).
  { rewrite lookup_app_r by lia. by rewrite Nat.sub_diag. }
  assert (Hold : forall (j : nat) (a : addr), (j < len ds)%nat ->
            array ds1 !! j = Some (Some a) -> (a < length h)%nat).
  { intros j a Hj Hja. unfold ds1 in Hja.
    rewrite append1_lookup_old in Hja by done.
    destruct (Hheld j Hj) as (b & e & Hjb & Hb).
    assert (a = b) by congruence. subst b. by eapply lookup_lt_Some. }
  destruct (range_from_no_expiry (len ds1) 0 (h ++ [fresh]) ds1)
    as (h' & Hrun & Hadv & _).
  - unfold ds1 at 1. rewrite append1_len. intros j Hj.
    destruct (decide (j = len ds)) as [->|Hne].
    + exists (length h), fresh. split; [done|]. split; [done|].
      simpl. unfold int_max in *. lia.
    + destruct (Hheld j ltac:(lia)) as (a & d & Hja & Ha).
      exists a, d. split.
      { unfold ds1. by rewrite append1_lookup_old by (done || lia). }
      split; [by apply lookup_app_l_Some|].
      apply (Hys j a d); [lia|done|done].
  - unfold ds1 at 1 2. rewrite append1_len. intros j j' a Hj Hj' Hja Hj'a.
    destruct (decide (j = len ds)) as [->|Hne];
      destruct (decide (j' = len ds)) as [->|Hne']; [done| | |].
    + assert (a = length h) by congruence. subst a.
      pose proof (Hold j' _ ltac:(lia) Hj'a). lia.
    + assert (a = length h) by congruence. subst a.
      pose proof (Hold j _ ltac:(lia) Hja). lia.
    + unfold ds1 in Hja, Hj'a.
      rewrite append1_lookup_old in Hja by (done || lia).
      rewrite append1_lookup_old in Hj'a by (done || lia).
      apply (Hdist j j' a); [lia|lia|done|done].
  - exists h'. split; [done|]. split; [done|].
    rewrite (Hadv (len ds) (length h) fresh).
    + unfold Dust_Update, fresh. simpl.
      replace (boardHeight + 1 - 1) with boardHeight by lia.
      rewrite wrap_id; [done|]. unfold in_int, int_min, int_max in *. lia.
    + unfold ds1. rewrite append1_len. lia.
    + done.
    + done.
Qed.

End Board.

Lemma Dusts_never_exceed_capacity_witness :
  (len ds49 <= 5)%nat /\ (length (elements ds49) <= 5)%nat.
Proof.
  apply (Dusts_never_exceed_capacity 84 48 (replicate 49 7) h49).
  vm_compute. reflexivity.
Defined.

(** *** Concrete ticks on the 84 x 48 board *)

Lemma live_empty : live [] empty.
Proof.
  split; [simpl; lia|]. split; intros j; simpl; lia.
Qed.

Lemma live_singleton (d : Dust) : live [d] (mkSlice [Some 0%nat] 1).
Proof.
  split; [unfold cap; simpl; lia|]. split.
  - intros j Hj. simpl in Hj. exists 0%nat, d.
    assert (j = 0%nat) as -> by lia. done.
  - intros j j' a Hj Hj' _ _. simpl in *. lia.
Qed.

Lemma spawned_Dust_advanced_same_tick_witness :
  spawn 84 48 7 [mkDust (Pt 7 48)] (mkSlice [Some 0%nat] 1) =
    Some ([mkDust (Pt 7 48)] ++ [mkDust (Pt (7 mod 84) (48 + 1))],
          append1 (mkSlice [Some 0%nat] 1) (Some (length [mkDust (Pt 7 48)]))) /\
  exists h' : Heap,
    Dusts_Update 84 48 7 [mkDust (Pt 7 48)] (mkSlice [Some 0%nat] 1) =
      Some (h', append1 (mkSlice [Some 0%nat] 1) (Some (length [mkDust (Pt 7 48)]))) /\
    array (append1 (mkSlice [Some 0%nat] 1) (Some (length [mkDust (Pt 7 48)])))
      !! len (mkSlice [Some 0%nat] 1) = Some (Some (length [mkDust (Pt 7 48)])) /\
    h' !! length [mkDust (Pt 7 48)] = Some (mkDust (Pt (7 mod 84) 48)).
Proof.
  apply (spawned_Dust_advanced_same_tick 84 48 7 [mkDust (Pt 7 48)]
           (mkSlice [Some 0%nat] 1)).
  - lia.
  - unfold int_max. lia.
  - apply live_singleton.
  - unfold maxDusts. simpl. lia.
  - intros j a d Hj Hja Ha. simpl in Hj.
    assert (j = 0%nat) as -> by lia.
    injection Hja as <-. injection Ha as <-. simpl. unfold int_max. lia.
Defined.

(** C3 (as stated) fails on the first tick of the game: the Dust spawned
    into the empty collection is advanced by the same [Update] and ends
    the tick with y = 48 = [boardHeight], not 49. *)
Lemma spawned_Dust_keeps_y_fails :
  Dusts_Update 84 48 7 [] empty =
    Some ([mkDust (Pt 7 48)], mkSlice [Some 0%nat] 1) /\
  ~ spawned_Dust_keeps_y 84 48.
Proof.
  assert (Hu : Dusts_Update 84 48 7 [] empty =
                 Some ([mkDust (Pt 7 48)], mkSlice [Some 0%nat] 1))
    by (vm_compute; reflexivity).
  split; [exact Hu|]. intros Hclaim.
  destruct (Hclaim 7 [] _ empty _ live_empty ltac:(unfold maxDusts; simpl; lia) Hu)
    as (d & Hd & Hy).
  injection Hd as <-. simpl in Hy. lia.
Qed.

(** The first tick of a game, on any board: the Dust spawned into the
    empty collection ends the tick at y = [boardHeight]. *)
Lemma first_tick (boardWidth boardHeight seed : Z) :
  0 < boardWidth -> 0 <= boardHeight < int_max ->
  Dusts_Update boardWidth boardHeight seed [] empty =
    Some ([mkDust (Pt (seed mod boardWidth) boardHeight)], mkSlice [Some 0%nat] 1).
Proof.
  intros HW HH. unfold Dusts_Update, spawn. simpl.
  rewrite rand_Intn_pos by done.
  assert (wrap (boardHeight + 1) = boardHeight + 1) as ->.
  { apply wrap_id. unfold in_int, int_min, int_max in *. lia. }
  unfold append1, cap. simpl.
  replace (boardHeight + 1 - 1) with boardHeight by lia.
  rewrite wrap_id by (unfold in_int, int_min, int_max in *; lia).
  destruct (Z.ltb_spec boardHeight 0); [lia|].
  unfold Dust_Update. simpl.
  replace (boardHeight + 1 - 1) with boardHeight by lia.
  by rewrite wrap_id by (unfold in_int, int_min, int_max in *; lia).
Qed.

(** C1: a tick on a full collection whose first Dust expires, as the 50th
    tick of a game on the 84 x 48 board is.  The collection holds five
    Dusts with y = 0, 1, 2, 3, 4 ([h49], [ds49]), so nothing is spawned
    and the board plays no part.  The first Dust expires and is removed at
    index 0; the loop goes on at index 1 of the shifted array, so the
    Dust at address 1 is not advanced (y stays 1), and at index 4 it reads
    the cell past the new length 4, which still points to the Dust at
    address 4: that one is advanced twice (y goes from 4 to 2). *)
Theorem Dusts_Update_skips_and_repeats (boardWidth boardHeight seed : Z) :
  run 84 48 (replicate 49 7) [] empty = Some (h49, ds49) /\
  live h49 ds49 /\
  Dusts_Update boardWidth boardHeight seed h49 ds49 = Some (h50, ds50) /\
  ys h49 ds49 = [Some 0; Some 1; Some 2; Some 3; Some 4] /\
  ys h50 ds50 = [Some 1; Some 1; Some 2; Some 2] /\
  (h49 !! 1%nat = Some (mkDust (Pt 7 1)) /\ h50 !! 1%nat = Some (mkDust (Pt 7 1))) /\
  (h49 !! 4%nat = Some (mkDust (Pt 7 4)) /\ h50 !! 4%nat = Some (mkDust (Pt 7 2))) /\
  (len ds50 = 4%nat /\ array ds50 !! 4%nat = Some (Some 4%nat)).
Proof.
  assert (Hrun : run 84 48 (replicate 49 7) [] empty = Some (h49, ds49))
    by (vm_compute; reflexivity).
  split; [exact Hrun|]. split.
  - eapply run_live; [exact Hrun|apply live_empty].
  - repeat split; vm_compute; reflexivity.
Qed.

(** On the 84 x 48 board the first Dust does leave after its 50 calls. *)
Lemma first_Dust_leaves_on_time :
  run 84 48 (replicate 50 7) [] empty = Some (h50, ds50) /\
  h50 !! 0%nat = Some (mkDust (Pt 7 (-1))) /\
  elements ds50 = [Some 1%nat; Some 2%nat; Some 3%nat; Some 4%nat].
Proof. repeat split; vm_compute; reflexivity. Qed.

(** What C4's theorem below shows on the 84 x 48 board happens on every
    board of height 4 to 128. *)
Lemma second_Dust_survives_on_boards :
  forallb second_Dust_survives (Z.of_nat <$> seq 4 125) = true.
Proof. vm_compute. reflexivity. Qed.

(** C4: the second Dust of a game on the 84 x 48 board.  It is spawned by
    the second [Update], at address 1 with y = 49.  After
    [boardHeight + 2 = 50] calls counted from that one (51 ticks in all)
    its y is 0, not negative, and the collection still holds it at index
    0: the 50th tick, which removed the first Dust, passed over it. *)
Theorem second_Dust_survives_its_ticks :
  run 84 48 [7] [] empty = Some ([mkDust (Pt 7 48)], mkSlice [Some 0%nat] 1) /\
  spawn 84 48 7 [mkDust (Pt 7 48)] (mkSlice [Some 0%nat] 1) =
    Some ([mkDust (Pt 7 48); mkDust (Pt 7 49)],
          mkSlice [Some 0%nat; Some 1%nat] 2) /\
  run 84 48 (replicate 50 7) [mkDust (Pt 7 48)] (mkSlice [Some 0%nat] 1) =
    Some (h51, ds51) /\
  h51 !! 1%nat = Some (mkDust (Pt 7 0)) /\
  elements ds51 !! 0%nat = Some (Some 1%nat).
Proof.
  repeat split; vm_compute; reflexivity.
Qed.

Lemma Dust_x_unchanged_witness :
  Coords (Dust_Update (mkDust (Pt 7 0))) = Pt 7 (wrap (0 - 1)) /\
  (in_int (0 - 1) -> Y (Coords (Dust_Update (mkDust (Pt 7 0)))) = 0 - 1) /\
  exists d', h50 !! 0%nat = Some d' /\ X (Coords d') = 7.
Proof.
  apply (Dust_x_unchanged 84 48 [7] h49 h50 ds49 ds50 0%nat (mkDust (Pt 7 0))).
  - vm_compute. reflexivity.
  - reflexivity.
Defined.

End ParticleFacts.

(** ** The asset loaders and the sound pool *)

Module AssetFacts.
Import GoInt GoIntFacts Assets.

Section Backend.

Variables ebiten_Image image_Image File vorbis_Stream audio_Player
  audio_Context : Type.
Variable path_Join : list string -> string.
Variable assets_Open : string -> File + error.
Variable ioutil_ReadAll : File -> list Byte.byte * option error.
Variable json_Unmarshal :
  list Byte.byte -> SpriteSheet ebiten_Image -> SpriteSheet ebiten_Image * option error.
Variable png_Decode : File -> image_Image + error.
Variable ebiten_NewImageFromImage : image_Image -> ebiten_Image.
Variable vorbis_DecodeWithSampleRate : Z -> File -> vorbis_Stream + error.
Variable vorbis_Length : vorbis_Stream -> Z.
Variable audio_NewPlayer :
  audio_Context -> Source vorbis_Stream -> audio_Player + error.

Local Abbreviation LoadImage :=
  (Assets.LoadImage assets_Open png_Decode ebiten_NewImageFromImage).
Local Abbreviation loadSprite :=
  (Assets.loadSprite path_Join assets_Open ioutil_ReadAll json_Unmarshal
     png_Decode ebiten_NewImageFromImage).
Local Abbreviation LoadSoundFile :=
  (Assets.LoadSoundFile assets_Open vorbis_DecodeWithSampleRate).
Local Abbreviation NewSoundPlayer := (Assets.NewSoundPlayer audio_NewPlayer).
Local Abbreviation AddMusic :=
  (Assets.AddMusic assets_Open vorbis_DecodeWithSampleRate vorbis_Length
     audio_NewPlayer).
Local Abbreviation AddSound_from :=
  (Assets.AddSound_from assets_Open vorbis_DecodeWithSampleRate audio_NewPlayer).
Local Abbreviation AddSound :=
  (Assets.AddSound assets_Open vorbis_DecodeWithSampleRate audio_NewPlayer).
Local Abbreviation clip_player :=
  (Assets.clip_player assets_Open vorbis_DecodeWithSampleRate audio_NewPlayer).
Local Abbreviation unplayed :=
  (Assets.unplayed assets_Open vorbis_DecodeWithSampleRate vorbis_Length
     audio_NewPlayer).

(** *** The sprite loader *)

Lemma LoadImage_fatal_on_open (name : string) (e : error) :
  assets_Open name = inr e -> LoadImage name = Fatal (OpenFailed name e).
Proof. unfold Assets.LoadImage. by intros ->. Qed.

Lemma LoadImage_fatal_on_decode (name : string) (file : File) (e : error) :
  assets_Open name = inl file -> png_Decode file = inr e ->
  LoadImage name = Fatal (PNGFailed name e).
Proof. unfold Assets.LoadImage. by intros -> ->. Qed.

Lemma loadSprite_fatal_on_description (name : string) (e : error) :
  assets_Open (path_Join ["assets"; "sprites"; name] +:+ ".json") = inr e ->
  loadSprite name = Fatal (OpenFailed (path_Join ["assets"; "sprites"; name]) e).
Proof. unfold Assets.loadSprite. by intros ->. Qed.

Lemma loadSprite_fatal_on_image (name : string) (file : File)
    (data : list Byte.byte) (c : Cause) :
  assets_Open (path_Join ["assets"; "sprites"; name] +:+ ".json") = inl file ->
  ioutil_ReadAll file = (data, None) ->
  LoadImage (path_Join ["assets"; "sprites"; name] +:+ ".png") = Fatal c ->
  loadSprite name = Fatal c.
Proof. unfold Assets.loadSprite. by intros -> -> ->. Qed.

(** The test of [err] after [json.Unmarshal] is dead.  On an asset set
    where the description opens and reads but [json.Unmarshal] reports it
    malformed, and the image loads, [loadSprite] would not end in
    [log.Fatal]: it returns the sheet as [json.Unmarshal] left it, with
    the image attached.  The embedded asset set holds no description (see
    [embeds_png_only]), so no call gets this far. *)
Theorem loadSprite_returns_on_malformed_description (name : string)
    (file : File) (data : list Byte.byte) (ss : SpriteSheet ebiten_Image)
    (e : error) (img : ebiten_Image) :
  assets_Open (path_Join ["assets"; "sprites"; name] +:+ ".json") = inl file ->
  ioutil_ReadAll file = (data, None) ->
  json_Unmarshal data zeroSpriteSheet = (ss, Some e) ->
  LoadImage (path_Join ["assets"; "sprites"; name] +:+ ".png") = Ok img ->
  loadSprite name = Ok (mkSpriteSheet (Sprite ss) (Meta ss) (Some img)).
Proof. unfold Assets.loadSprite. by intros -> -> -> ->. Qed.

(** *** Playing *)

Lemma PlayVariant_in_range (s : Sound audio_Player) (i : nat) :
  (i < length (Audio s))%nat -> PlayVariant (Z.of_nat i) s = Some (plays i s).
Proof.
  intros Hi. destruct (lookup_lt_is_Some_2 (Audio s) i Hi) as [p Hp].
  unfold PlayVariant, call, index. simpl.
  destruct (Z.ltb_spec (Z.of_nat i) 0); [lia|].
  rewrite Nat2Z.id, Hp. done.
Qed.

Lemma PlayVariant_out_of_range (s : Sound audio_Player) (i : Z) :
  i < 0 \/ Z.of_nat (length (Audio s)) <= i -> PlayVariant i s = None.
Proof.
  intros Hi. unfold PlayVariant, call, index. simpl.
  destruct (Z.ltb_spec i 0); [done|].
  rewrite lookup_ge_None_2 by lia. done.
Qed.

Lemma Play_empty (seed : Z) (s : Sound audio_Player) :
  Audio s = [] -> Play seed s = Some (s, []).
Proof. unfold Play. by intros ->. Qed.

Lemma Play_nonempty (seed : Z) (s : Sound audio_Player) :
  Audio s <> [] ->
  exists i : nat,
    (i < length (Audio s))%nat /\ Play seed s = Some (plays i s) /\
    (length (Audio s) = 1%nat -> i = 0%nat).
Proof.
  intros Hne. unfold Play.
  assert (0 < length (Audio s))%nat as Hlen.
  { destruct (Audio s); [done|simpl; lia]. }
  destruct (Z.eqb_spec (Z.of_nat (length (Audio s))) 0); [lia|].
  destruct (Z.ltb_spec 1 (Z.of_nat (length (Audio s)))).
  - rewrite rand_Intn_pos by lia.
    pose proof (Z.mod_pos_bound seed (Z.of_nat (length (Audio s))) ltac:(lia)) as Hr.
    exists (Z.to_nat (seed mod Z.of_nat (length (Audio s)))).
    split; [lia|]. split; [|lia].
    rewrite <- PlayVariant_in_range by lia. by rewrite Z2Nat.id by lia.
  - exists 0%nat. split; [lia|]. split; [|done].
    by apply (PlayVariant_in_range s 0).
Qed.

(** C6: [Play] by the size of the pool.  On an empty pool it returns with
    the pool as it was and no call on any player; on a pool of one it
    plays index 0, whatever the generator; on a larger pool it plays some
    index below the size of the pool. *)
Theorem Play_by_pool_size (seed : Z) (s : Sound audio_Player) :
  match Audio s with
  | [] => Play seed s = Some (s, [])
  | [_] => Play seed s = Some (plays 0 s)
  | _ :: _ :: _ =>
      exists i : nat, (i < length (Audio s))%nat /\ Play seed s = Some (plays i s)
  end.
Proof.
  destruct (Audio s) as [|p [|q l]] eqn:E.
  - by apply Play_empty.
  - destruct (Play_nonempty seed s) as (i & _ & Hplay & Hone); [by rewrite E|].
    rewrite E in Hone. by rewrite Hone in Hplay.
  - destruct (Play_nonempty seed s) as (i & Hi & Hplay & _); [by rewrite E|].
    rewrite E in Hi. by exists i.
Qed.

(** *** The volume *)

Lemma SetVolume_in_range (v : float) (s : Sound audio_Player) :
  (0 <=? v)%float = true -> (v <=? 1)%float = true ->
  SetVolume v s = mkSound (Audio s) (LastPlayed s) v.
Proof. unfold SetVolume. by intros -> ->. Qed.

Lemma SetVolume_out_of_range (w : float) (s : Sound audio_Player) :
  (0 <=? w)%float && (w <=? 1)%float = false -> SetVolume w s = s.
Proof. unfold SetVolume. by intros ->. Qed.

Lemma SetVolume_LastPlayed (v : float) (s : Sound audio_Player) :
  LastPlayed (SetVolume v s) = LastPlayed s.
Proof. unfold SetVolume. by destruct (_ && _). Qed.

(** C7: for [v] in [[0, 1]], [SetVolume v] stores [v] and touches nothing
    else, and the [Play] that follows hands exactly [v] to the variant it
    plays (on an empty pool it plays none); for [w] outside [[0, 1]],
    [SetVolume w] returns, without a failure, the pool as it was. *)
Theorem SetVolume_then_Play (v w : float) (seed : Z) (s : Sound audio_Player) :
  (0 <=? v)%float = true -> (v <=? 1)%float = true ->
  (0 <=? w)%float && (w <=? 1)%float = false ->
  SetVolume v s = mkSound (Audio s) (LastPlayed s) v /\
  Volume (SetVolume v s) = v /\
  match Audio s with
  | [] => Play seed (SetVolume v s) = Some (SetVolume v s, [])
  | _ :: _ =>
      exists i : nat,
        (i < length (Audio s))%nat /\
        Play seed (SetVolume v s) =
          Some (mkSound (Audio s) (Z.of_nat i) v,
                [(i, CallSetVolume v); (i, CallRewind); (i, CallPlay)])
  end /\
  SetVolume w s = s /\ Volume (SetVolume w s) = Volume s.
Proof.
  intros Hv0 Hv1 Hw.
  rewrite (SetVolume_in_range v s Hv0 Hv1), (SetVolume_out_of_range w s Hw).
  split; [done|]. split; [done|]. split; [|done].
  destruct (Audio s) as [|p l] eqn:E.
  - by apply Play_empty.
  - destruct (Play_nonempty seed (mkSound (p :: l) (LastPlayed s) v))
      as (i & Hi & Hplay & _); [done|].
    exists i. split; [exact Hi|exact Hplay].
Qed.

(** *** Pausing *)

Lemma AddSound_from_iff (f : string) (sampleRate : Z) (context : audio_Context)
    (variants : Z) (n : nat) :
  forall (i : Z) (s s' : Sound audio_Player),
    AddSound_from n i f sampleRate context variants s = Ok s' <->
    exists players : list audio_Player,
      Forall2 (clip_player sampleRate context) (names_from f variants n i) players /\
      s' = mkSound (Audio s ++ players) (LastPlayed s) (Volume s).
Proof.
  induction n as [|n IH]; intros i s s'; simpl.
  - split.
    + intros [= <-]. exists []. split; [constructor|].
      rewrite app_nil_r. by destruct s.
    + intros (players & Hall & ->). apply Forall2_nil_inv_l in Hall as ->.
      rewrite app_nil_r. by destruct s.
  - unfold Assets.LoadSoundFile, Assets.NewSoundPlayer. split.
    + destruct (assets_Open (variantFile f variants i)) as [file|e] eqn:Ho;
        [|discriminate].
      destruct (vorbis_DecodeWithSampleRate sampleRate file) as [stream|e] eqn:Hd;
        [|discriminate].
      destruct (audio_NewPlayer context (Stream stream)) as [p|e] eqn:Hp;
        [|discriminate].
      intros Hrest. apply IH in Hrest as (players & Hall & ->). simpl.
      exists (p :: players). split.
      * constructor; [|done]. by exists file, stream.
      * by rewrite <- app_assoc.
    + intros (players & Hall & ->).
      apply Forall2_cons_inv_l in Hall as (p & rest & Hclip & Hall & ->).
      destruct Hclip as (file & stream & -> & -> & ->).
      apply IH. exists rest. split; [done|]. simpl. by rewrite <- app_assoc.
Qed.

Lemma unplayed_LastPlayed (s : Sound audio_Player) : unplayed s -> LastPlayed s = 0.
Proof.
  induction 1 as [|f sampleRate context s s' _ IH Hadd
                  |f sampleRate context v s s' _ IH Hadd
                  |v s _ IH|s s' t _ IH Hp].
  - done.
  - unfold Assets.AddMusic in Hadd.
    destruct (Assets.LoadSoundFile _ _ _ _) as [music|]; [|discriminate].
    destruct (Assets.NewMusicPlayer _ _ _ _) as [p|]; [|discriminate].
    by injection Hadd as <-.
  - unfold Assets.AddSound in Hadd.
    apply AddSound_from_iff in Hadd as (players & _ & ->). done.
  - by rewrite SetVolume_LastPlayed.
  - unfold Pause in Hp. destruct (call s (LastPlayed s) CallPause); [|discriminate].
    by injection Hp as <- _.
Qed.

Lemma Pause_in_range (s : Sound audio_Player) (i : nat) :
  LastPlayed s = Z.of_nat i -> (i < length (Audio s))%nat ->
  Pause s = Some (s, [(i, CallPause)]).
Proof.
  intros Hl Hi. destruct (lookup_lt_is_Some_2 (Audio s) i Hi) as [p Hp].
  unfold Pause, call, index. rewrite Hl.
  destruct (Z.ltb_spec (Z.of_nat i) 0); [lia|].
  rewrite Nat2Z.id, Hp. done.
Qed.

Lemma Pause_empty (s : Sound audio_Player) : Audio s = [] -> Pause s = None.
Proof.
  intros E. unfold Pause, call, index. rewrite E.
  by destruct (LastPlayed s <? 0).
Qed.

(** C8 (as amended): for an index [i] in range, [PlayVariant i] records
    [i] as [LastPlayed] and the [Pause] right after it pauses the player
    at index [i] and no other.  A pool on which neither [Play] nor
    [PlayVariant] was called has [LastPlayed = 0]; [Pause] on it pauses
    the player at index 0 when the pool holds at least one variant, and
    fails with an index out of range when the pool is empty. *)
Theorem PlayVariant_then_Pause (i : Z) (s s0 : Sound audio_Player) :
  0 <= i < Z.of_nat (length (Audio s)) ->
  unplayed s0 ->
  PlayVariant i s = Some (plays (Z.to_nat i) s) /\
  LastPlayed (fst (plays (Z.to_nat i) s)) = i /\
  Pause (fst (plays (Z.to_nat i) s)) =
    Some (fst (plays (Z.to_nat i) s), [(Z.to_nat i, CallPause)]) /\
  LastPlayed s0 = 0 /\
  match Audio s0 with
  | [] => Pause s0 = None
  | _ :: _ => Pause s0 = Some (s0, [(0%nat, CallPause)])
  end.
Proof.
  intros Hi Hs0. split; [|split; [|split; [|split]]].
  - rewrite <- PlayVariant_in_range by lia. by rewrite Z2Nat.id by lia.
  - simpl. lia.
  - apply Pause_in_range; simpl; lia.
  - by apply unplayed_LastPlayed.
  - pose proof (unplayed_LastPlayed s0 Hs0) as Hl.
    destruct (Audio s0) as [|p l] eqn:E.
    + by apply Pause_empty.
    + apply Pause_in_range; [done|]. rewrite E. simpl. lia.
Qed.

(** *** Loading the variants of a sound *)

Lemma names_from_suffixed (f : string) (variants : Z) (n : nat) :
  variants <> 1 ->
  forall i : Z, 0 <= i -> i + Z.of_nat n <= int_max ->
    names_from f variants n i =
      (fun k : nat => f +:+ "-" +:+ strconv_Itoa (Z.of_nat k) +:+ ".ogg")
        <$> seq (S (Z.to_nat i)) n.
Proof.
  intros Hne. induction n as [|n IH]; intros i Hi Hmax; [done|].
  assert (Hw : wrap (i + 1) = i + 1).
  { apply wrap_id. unfold in_int, int_min, int_max in *. lia. }
  cbn [names_from seq fmap list_fmap]. rewrite Hw. f_equal.
  - unfold variantFile. destruct (Z.eqb_spec variants 1); [done|].
    rewrite Hw. by replace (Z.of_nat (S (Z.to_nat i))) with (i + 1) by lia.
  - rewrite IH by lia. by replace (Z.to_nat (i + 1)) with (S (Z.to_nat i)) by lia.
Qed.

Lemma names_from_spec (f : string) (variants : Z) :
  variants <= int_max ->
  names_from f variants (Z.to_nat variants) 0 = spec_variantNames f variants.
Proof.
  intros Hmax. unfold spec_variantNames.
  destruct (Z.eqb_spec variants 1) as [->|Hne]; [done|].
  rewrite names_from_suffixed by (done || (unfold int_max in *; lia)). done.
Qed.

(** C9: [AddSound] with the variant count [variants], 1 when the caller
    gives none, ends normally exactly when each file of the naming
    convention opens, decodes and binds to a player; it has then appended
    one player per file, in order, each made from the decoded stream
    itself and not from a loop over it.  The files are [f.ogg] alone for
    [variants = 1] and [f-1.ogg], [f-2.ogg], ... otherwise, [variants] of
    them. *)
Theorem AddSound_loads_named_variants (f : string) (sampleRate : Z)
    (context : audio_Context) (v : list Z) (s s' : Sound audio_Player) :
  variantCount v <= int_max ->
  (AddSound f sampleRate context v s = Ok s' <->
   exists players : list audio_Player,
     Forall2 (clip_player sampleRate context)
       (spec_variantNames f (variantCount v)) players /\
     s' = mkSound (Audio s ++ players) (LastPlayed s) (Volume s)) /\
  variantCount [] = 1 /\
  length (spec_variantNames f (variantCount v)) = Z.to_nat (variantCount v) /\
  spec_variantNames f 1 = [f +:+ ".ogg"] /\
  (variantCount v <> 1 ->
   forall k : nat, (k < Z.to_nat (variantCount v))%nat ->
     spec_variantNames f (variantCount v) !! k =
       Some (f +:+ "-" +:+ strconv_Itoa (Z.of_nat k + 1) +:+ ".ogg")).
Proof.
  intros Hmax. split; [|split; [done|split; [|split; [done|]]]].
  - unfold Assets.AddSound. rewrite <- names_from_spec by done.
    apply AddSound_from_iff.
  - unfold spec_variantNames.
    destruct (Z.eqb_spec (variantCount v) 1) as [->|Hne]; [done|].
    by rewrite length_fmap, length_seq.
  - intros Hne k Hk. unfold spec_variantNames.
    destruct (Z.eqb_spec (variantCount v) 1); [done|].
    rewrite list_lookup_fmap, lookup_seq_lt by done. simpl.
    by replace (Z.of_nat (S k)) with (Z.of_nat k + 1) by lia.
Qed.

End Backend.

(** *** On the fixture *)

Lemma loadSprite_returns_on_malformed_description_witness :
  loadSprite Fixture.path_Join Fixture.assets_Open Fixture.ioutil_ReadAll
    Fixture.json_Unmarshal Fixture.png_Decode Fixture.ebiten_NewImageFromImage
    "hero" =
  Ok (mkSpriteSheet [] (mkSpriteMeta "" []) (Some [Byte.x89; Byte.x50])).
Proof.
  apply (loadSprite_returns_on_malformed_description
           (list Byte.byte) (list Byte.byte) (list Byte.byte)
           Fixture.path_Join Fixture.assets_Open Fixture.ioutil_ReadAll
           Fixture.json_Unmarshal Fixture.png_Decode
           Fixture.ebiten_NewImageFromImage
           "hero" [Byte.x7b] [Byte.x7b] zeroSpriteSheet
           "unexpected end of JSON input" [Byte.x89; Byte.x50]);
    reflexivity.
Defined.

Lemma SetVolume_then_Play_witness :
  Volume (SetVolume 0.5 Fixture.step) = 0.5%float /\
  (exists i : nat,
     (i < 3)%nat /\
     Play 7 (SetVolume 0.5 Fixture.step) =
       Some (mkSound (Audio Fixture.step) (Z.of_nat i) 0.5%float,
             [(i, CallSetVolume 0.5); (i, CallRewind); (i, CallPlay)])) /\
  SetVolume 1.5 Fixture.step = Fixture.step.
Proof.
  destruct (SetVolume_then_Play (Source (list Byte.byte)) 0.5 1.5 7 Fixture.step
              eq_refl eq_refl eq_refl) as (_ & Hv & Hplay & Hw & _).
  split; [exact Hv|]. split; [exact Hplay|exact Hw].
Defined.

Lemma step_unplayed :
  unplayed Fixture.assets_Open Fixture.vorbis_DecodeWithSampleRate
    Fixture.vorbis_Length Fixture.audio_NewPlayer Fixture.step.
Proof.
  apply (unplayed_AddSound _ _ _ _ _ _ _ _ "step" 44100 tt [3] zeroSound).
  - apply unplayed_zero.
  - reflexivity.
Qed.

Lemma PlayVariant_then_Pause_witness :
  PlayVariant 2 Fixture.step = Some (plays 2 Fixture.step) /\
  LastPlayed (fst (plays 2 Fixture.step)) = 2 /\
  Pause (fst (plays 2 Fixture.step)) =
    Some (fst (plays 2 Fixture.step), [(2%nat, CallPause)]) /\
  LastPlayed Fixture.step = 0 /\
  Pause Fixture.step = Some (Fixture.step, [(0%nat, CallPause)]).
Proof.
  apply (PlayVariant_then_Pause (list Byte.byte) (list Byte.byte)
           (Source (list Byte.byte)) unit
           Fixture.assets_Open Fixture.vorbis_DecodeWithSampleRate
           Fixture.vorbis_Length Fixture.audio_NewPlayer
           2 Fixture.step Fixture.step).
  - simpl. lia.
  - apply step_unplayed.
Defined.

(** C8 (as stated) fails on a fresh pool: [Sound{}] was never played and
    has [LastPlayed = 0], but it holds no variant 0, and [Pause] on it
    fails with an index out of range. *)
Lemma Pause_on_fresh_pool_fails :
  Pause (@zeroSound (Source (list Byte.byte))) = None /\
  ~ Pause_before_play_pauses_variant_0 Fixture.assets_Open
      Fixture.vorbis_DecodeWithSampleRate Fixture.vorbis_Length
      Fixture.audio_NewPlayer.
Proof.
  split; [reflexivity|]. intros Hclaim.
  destruct (Hclaim zeroSound (unplayed_zero _ _ _ _ _ _ _ _)) as [_ Hp].
  discriminate Hp.
Qed.

Lemma AddSound_loads_named_variants_witness :
  AddSound Fixture.assets_Open Fixture.vorbis_DecodeWithSampleRate
    Fixture.audio_NewPlayer "step" 44100 tt [3] zeroSound = Ok Fixture.step /\
  spec_variantNames "step" 3 = ["step-1.ogg"; "step-2.ogg"; "step-3.ogg"].
Proof.
  destruct (AddSound_loads_named_variants (list Byte.byte) (list Byte.byte)
              (Source (list Byte.byte)) unit
              Fixture.assets_Open Fixture.vorbis_DecodeWithSampleRate
              Fixture.audio_NewPlayer "step" 44100 tt [3] zeroSound Fixture.step)
    as (Hiff & _).
  - unfold int_max. simpl. lia.
  - split; [|reflexivity]. apply Hiff.
    exists [Stream [Byte.x01]; Stream [Byte.x02]; Stream [Byte.x03]].
    split; [|reflexivity].
    repeat constructor; eexists _, _; repeat split; reflexivity.
Defined.

End AssetFacts.

(** ** The particle manager between ticks *)

Module ParticleInvariants.
Import GoInt GoIntFacts Particles ParticleFacts.

Lemma remove_at_bound (s s' : Slice) (i : nat) :
  remove_at s i = Some s' -> (i < len s)%nat.
Proof.
  unfold remove_at.
  destruct (Nat.leb_spec i (cap s)); [|discriminate].
  destruct (Nat.leb_spec (i + 1) (len s)); [|discriminate]. lia.
Qed.

Lemma held_remove_at (ds ds' : Slice) (i : nat) (a : addr) :
  remove_at ds i = Some ds' -> (len ds <= cap ds)%nat ->
  held ds' a -> held ds a.
Proof.
  intros Hr Hc (j & Hj & Hja).
  rewrite (remove_at_lookup _ _ _ _ Hr Hc Hj) in Hja.
  pose proof (remove_at_len _ _ _ Hr).
  eexists. split; [|exact Hja]. destruct (decide (j < i)%nat); lia.
Qed.

Lemma held_remove_at_other (h : Heap) (ds ds' : Slice) (i : nat) (a0 a : addr) :
  live h ds -> remove_at ds i = Some ds' -> array ds !! i = Some (Some a0) ->
  held ds a -> a <> a0 -> held ds' a.
Proof.
  intros (Hc & _ & Hdist) Hr Hi (j & Hj & Hja) Hne.
  pose proof (remove_at_len _ _ _ Hr) as Hlen.
  pose proof (remove_at_bound _ _ _ Hr) as Hb.
  assert (j <> i) by (intros ->; congruence).
  exists (if decide (j < i)%nat then j else pred j).
  assert ((if decide (j < i)%nat then j else pred j) < len ds')%nat as Hj'
    by (destruct (decide (j < i)%nat); lia).
  split; [done|]. rewrite (remove_at_lookup _ _ _ _ Hr Hc Hj'), <- Hja.
  f_equal. destruct (decide (j < i)%nat) as [Hlt|Hge].
  - by rewrite decide_True.
  - rewrite decide_False by lia. lia.
Qed.

Lemma not_held_remove_at (h : Heap) (ds ds' : Slice) (i : nat) (a0 : addr) :
  live h ds -> remove_at ds i = Some ds' -> array ds !! i = Some (Some a0) ->
  ~ held ds' a0.
Proof.
  intros (Hc & _ & Hdist) Hr Hi (j & Hj & Hja).
  pose proof (remove_at_len _ _ _ Hr) as Hlen.
  pose proof (remove_at_bound _ _ _ Hr) as Hb.
  rewrite (remove_at_lookup _ _ _ _ Hr Hc Hj) in Hja.
  assert ((if decide (j < i)%nat then j else S j) = i) as Heq.
  { apply (Hdist _ _ a0); [destruct (decide (j < i)%nat); lia|lia|done|done]. }
  destruct (decide (j < i)%nat); lia.
Qed.

Lemma held_append1 (ds : Slice) (p a : addr) :
  (len ds <= cap ds)%nat ->
  held (append1 ds (Some p)) a <-> held ds a \/ a = p.
Proof.
  intros Hc. split.
  - intros (j & Hj & Hja). rewrite append1_len in Hj.
    destruct (decide (j = len ds)) as [->|Hne].
    + rewrite append1_lookup_new in Hja by done. right. congruence.
    + rewrite append1_lookup_old in Hja by (done || lia).
      left. exists j. split; [lia|done].
  - intros [(j & Hj & Hja)| ->].
    + exists j. rewrite append1_len. split; [lia|].
      by rewrite append1_lookup_old.
    + exists (len ds). rewrite append1_len. split; [lia|].
      by apply append1_lookup_new.
Qed.

Lemma held_allocated (h : Heap) (ds : Slice) (a : addr) :
  live h ds -> held ds a -> (a < length h)%nat.
Proof.
  intros (_ & Hheld & _) (j & Hj & Hja).
  destruct (Hheld j Hj) as (b & d & Hjb & Hb).
  assert (a = b) by congruence. subst b. by eapply lookup_lt_Some.
Qed.

(** The loop of [Dusts.Update], seen from the Dusts [P] the collection
    held when the loop began: the collection stays well formed, a Dust it
    holds has y >= 0, and a Dust of [P] it holds no more has y = -1. *)
Lemma range_from_cull (boardHeight : Z) (P : addr -> Prop) (n : nat) :
  0 <= boardHeight + 1 <= int_max ->
  forall (i : nat) (h h' : Heap) (ds ds' : Slice),
    range_from n i h ds = Some (h', ds') ->
    in_flight boardHeight h ds ->
    (forall (a : addr) (d : Dust), P a -> h !! a = Some d ->
       held ds a \/ Y (Coords d) = -1) ->
    in_flight boardHeight h' ds' /\
    (forall (a : addr) (d : Dust), P a -> h' !! a = Some d ->
       held ds' a \/ Y (Coords d) = -1) /\
    (forall a : addr, held ds' a -> held ds a).
Proof.
  intros HH. induction n as [|n IH]; intros i h h' ds ds'; simpl.
  - intros [= <- <-] Hfl HP. done.
  - destruct (array ds !! i) as [[a0|]|] eqn:Hi; try discriminate.
    destruct (h !! a0) as [d0|] eqn:Ha0; try discriminate.
    intros Hrun (Hlive & Hys) HP.
    assert (Hlive1 : live (<[a0 := Dust_Update d0]> h) ds).
    { apply (live_heap h); [done|]. intros b [e Hb].
      apply lookup_lt_is_Some. rewrite length_insert. by eapply lookup_lt_Some. }
    assert (Hsame : forall a : addr, a <> a0 ->
              <[a0 := Dust_Update d0]> h !! a = h !! a)
      by (intros a Hne; by apply list_lookup_insert_ne).
    assert (Hnew : <[a0 := Dust_Update d0]> h !! a0 = Some (Dust_Update d0))
      by (apply list_lookup_insert_eq; by eapply lookup_lt_Some).
    assert (Hstep : held ds a0 ->
              wrap (Y (Coords d0) - 1) = Y (Coords d0) - 1 /\
              0 <= Y (Coords d0) <= boardHeight + 1).
    { intros Hh. pose proof (Hys a0 d0 Hh Ha0) as Hb. split; [|done].
      apply wrap_id. unfold in_int, int_min, int_max in *. lia. }
    revert Hrun.
    destruct (Z.ltb_spec (wrap (Y (Coords d0) - 1)) 0) as [Hneg|Hpos].
    + destruct (remove_at ds i) as [ds1|] eqn:Hr; try discriminate.
      intros Hrun.
      assert (Hh0 : held ds a0).
      { exists i. split; [by eapply remove_at_bound|done]. }
      destruct (Hstep Hh0) as [Hy Hb].
      destruct (IH (S i) _ h' ds1 ds' Hrun) as (Hfl' & HP' & Hsub).
      * split; [by eapply live_remove_at|].
        intros a d Hh Ha. destruct (decide (a = a0)) as [->|Hne].
        { exfalso. by eapply not_held_remove_at. }
        rewrite Hsame in Ha by done.
        apply (Hys a d); [|done].
        eapply held_remove_at; [done|apply Hlive|done].
      * intros a d HPa Ha. destruct (decide (a = a0)) as [->|Hne].
        { right. assert (d = Dust_Update d0) by congruence. subst d.
          simpl. lia. }
        rewrite Hsame in Ha by done.
        destruct (HP a d HPa Ha) as [Hh|Hm]; [left|by right].
        by eapply held_remove_at_other.
      * split; [done|]. split; [done|].
        intros a Hh. eapply held_remove_at; [done|apply Hlive|]. by apply Hsub.
    + intros Hrun.
      destruct (IH (S i) _ h' ds ds' Hrun) as (Hfl' & HP' & Hsub).
      * split; [done|].
        intros a d Hh Ha. destruct (decide (a = a0)) as [->|Hne].
        { assert (d = Dust_Update d0) by congruence. subst d.
          destruct (Hstep Hh) as [Hy Hb]. simpl. lia. }
        rewrite Hsame in Ha by done. by apply (Hys a d).
      * intros a d HPa Ha. destruct (decide (a = a0)) as [->|Hne].
        { assert (d = Dust_Update d0) by congruence. subst d.
          destruct (HP a0 d0 HPa Ha0) as [Hh|Hm]; [by left|].
          exfalso. rewrite Hm in Hpos.
          change (wrap (-1 - 1)) with (-2) in Hpos. lia. }
        rewrite Hsame in Ha by done. by apply (HP a d).
      * done.
Qed.

Lemma range_from_heap_length (n : nat) :
  forall (i : nat) (h h' : Heap) (ds ds' : Slice),
    range_from n i h ds = Some (h', ds') -> length h' = length h.
Proof.
  induction n as [|n IH]; intros i h h' ds ds'; simpl.
  - by intros [= <- <-].
  - destruct (array ds !! i) as [[a|]|]; try discriminate.
    destruct (h !! a) as [d|]; try discriminate.
    destruct (_ <? 0).
    + destruct (remove_at ds i) as [ds1|]; try discriminate.
      intros Hrun. apply IH in Hrun. by rewrite length_insert in Hrun.
    + intros Hrun. apply IH in Hrun. by rewrite length_insert in Hrun.
Qed.

Lemma live_held (h : Heap) (ds : Slice) (a : addr) :
  live h ds -> held ds a -> is_Some (h !! a).
Proof.
  intros Hlive Hh. apply lookup_lt_is_Some. by eapply held_allocated.
Qed.

Section Board.

Variables boardWidth boardHeight : Z.

Local Abbreviation spawn := (Particles.spawn boardWidth boardHeight).
Local Abbreviation Dusts_Update := (Particles.Dusts_Update boardWidth boardHeight).
Local Abbreviation run := (Particles.run boardWidth boardHeight).

Lemma spawn_cases (seed : Z) (h h1 : Heap) (ds ds1 : Slice) :
  spawn seed h ds = Some (h1, ds1) ->
  ((len ds < maxDusts)%nat /\ 0 < boardWidth /\
   h1 = h ++ [mkDust (Pt (seed mod boardWidth) (wrap (boardHeight + 1)))] /\
   ds1 = append1 ds (Some (length h))) \/
  ((maxDusts <= len ds)%nat /\ h1 = h /\ ds1 = ds).
Proof.
  unfold Particles.spawn, rand_Intn.
  destruct (Nat.ltb_spec (len ds) maxDusts).
  - destruct (Z.leb_spec boardWidth 0); [discriminate|].
    intros [= <- <-]. left. done.
  - intros [= <- <-]. by right.
Qed.

Lemma spawn_in_flight (seed : Z) (h h1 : Heap) (ds ds1 : Slice) :
  0 <= boardHeight + 1 <= int_max ->
  spawn seed h ds = Some (h1, ds1) ->
  in_flight boardHeight h ds -> in_flight boardHeight h1 ds1.
Proof.
  intros HH Hs (Hlive & Hys).
  destruct (spawn_cases _ _ _ _ _ Hs) as [(_ & _ & -> & ->)|(_ & -> & ->)];
    [|done].
  split; [by apply live_append1|].
  intros a d Hh Ha. apply held_append1 in Hh; [|apply Hlive].
  destruct Hh as [Hh| ->].
  - apply (Hys a d Hh).
    pose proof (held_allocated _ _ _ Hlive Hh).
    by rewrite lookup_app_l in Ha.
  - rewrite lookup_app_r in Ha by lia. rewrite Nat.sub_diag in Ha.
    injection Ha as <-. simpl. rewrite wrap_id; [lia|].
    unfold in_int, int_min, int_max in *. lia.
Qed.

Lemma Dusts_Update_cull (seed : Z) (h h' : Heap) (ds ds' : Slice) :
  0 <= boardHeight + 1 <= int_max ->
  in_flight boardHeight h ds ->
  Dusts_Update seed h ds = Some (h', ds') ->
  in_flight boardHeight h' ds' /\
  (forall (a : addr) (d : Dust), held ds a -> h' !! a = Some d ->
     held ds' a \/ Y (Coords d) = -1) /\
  (forall a : addr, held ds' a -> held ds a \/ a = length h).
Proof.
  intros HH Hfl. unfold Particles.Dusts_Update.
  destruct (spawn seed h ds) as [[h1 ds1]|] eqn:Hs; [|discriminate].
  intros Hrun.
  pose proof (spawn_in_flight _ _ _ _ _ HH Hs Hfl) as Hfl1.
  destruct (range_from_cull boardHeight (held ds1) _ HH _ _ _ _ _ Hrun Hfl1)
    as (Hfl' & HP & Hsub); [by left|].
  assert (Hds1 : forall a : addr, held ds1 a <-> held ds a \/
            ((len ds < maxDusts)%nat /\ a = length h)).
  { intros a.
    destruct (spawn_cases _ _ _ _ _ Hs) as [(Hl & _ & -> & ->)|(Hl & -> & ->)].
    - rewrite held_append1 by apply Hfl. intuition.
    - intuition lia. }
  split; [done|]. split.
  - intros a d Hh. apply HP. apply Hds1. by left.
  - intros a Hh. apply Hsub, Hds1 in Hh. intuition.
Qed.

Lemma run_in_flight (seeds : list Z) :
  0 <= boardHeight + 1 <= int_max ->
  forall (h h' : Heap) (ds ds' : Slice),
    run seeds h ds = Some (h', ds') ->
    in_flight boardHeight h ds -> in_flight boardHeight h' ds'.
Proof.
  intros HH. induction seeds as [|seed rest IH]; intros h h' ds ds'; simpl.
  - by intros [= <- <-].
  - destruct (Dusts_Update seed h ds) as [[h1 ds1]|] eqn:Hu; [|discriminate].
    intros Hrun Hfl. eapply IH; [exact Hrun|].
    by destruct (Dusts_Update_cull _ _ _ _ _ HH Hfl Hu).
Qed.

Lemma in_flight_empty : in_flight boardHeight [] empty.
Proof.
  split; [apply live_empty|]. intros a d (j & Hj & _). simpl in Hj. lia.
Qed.

(** X1: every collection that a game reaches from the empty one is well
    formed: its length is within its capacity, each of its cells points
    to an allocated Dust (none is nil), and no Dust is in it twice. *)
Theorem reached_collection_live (seeds : list Z) (h : Heap) (ds : Slice) :
  run seeds [] empty = Some (h, ds) ->
  (len ds <= cap ds)%nat /\
  (forall j : nat, (j < len ds)%nat ->
     exists (a : addr) (d : Dust), array ds !! j = Some (Some a) /\ h !! a = Some d) /\
  NoDup (elements ds).
Proof.
  intros Hrun.
  destruct (run_live _ _ _ _ _ _ _ Hrun live_empty) as (Hc & Hheld & Hdist).
  split; [done|]. split; [done|].
  apply NoDup_alt. intros j j' p Hj Hj'. unfold elements in *.
  apply lookup_take_Some in Hj as [Hj Hlt].
  apply lookup_take_Some in Hj' as [Hj' Hlt'].
  destruct (Hheld j Hlt) as (a & d & Hja & _).
  apply (Hdist j j' a); [done|done|done|congruence].
Qed.

(** X2: between ticks, every Dust the collection holds has
    0 <= y <= boardHeight + 1: an expired Dust never outlives the
    [Update] that expired it, although the cull skips entries. *)
Theorem held_Dusts_in_range (seeds : list Z) (h : Heap) (ds : Slice)
    (a : addr) (d : Dust) :
  0 <= boardHeight < int_max ->
  run seeds [] empty = Some (h, ds) ->
  held ds a -> h !! a = Some d ->
  0 <= Y (Coords d) <= boardHeight + 1.
Proof.
  intros HH Hrun.
  assert (0 <= boardHeight + 1 <= int_max) as HH' by lia.
  destruct (run_in_flight seeds HH' _ _ _ _ Hrun in_flight_empty) as [_ Hys].
  apply Hys.
Qed.

(** X3: what one [Update] removes.  From a collection between ticks, a
    Dust that was held either stays, with y >= 0, or leaves, with
    y = -1 exactly; so only expired Dusts leave, and every expired one
    does.  The only Dust that can join is the one just allocated. *)
Theorem cull_removes_exactly_expired (seed : Z) (h h' : Heap) (ds ds' : Slice) :
  0 <= boardHeight < int_max ->
  in_flight boardHeight h ds ->
  Dusts_Update seed h ds = Some (h', ds') ->
  (forall a : addr, held ds a ->
     exists d : Dust, h' !! a = Some d /\
       ((held ds' a /\ 0 <= Y (Coords d)) \/ (~ held ds' a /\ Y (Coords d) = -1))) /\
  (forall a : addr, held ds' a -> held ds a \/ a = length h).
Proof.
  intros HH Hfl Hu.
  assert (0 <= boardHeight + 1 <= int_max) as HH' by lia.
  destruct (Dusts_Update_cull _ _ _ _ _ HH' Hfl Hu) as ((Hlive' & Hys') & Hout & Hin).
  split; [|done]. intros a Hh.
  destruct (live_held _ _ _ (proj1 Hfl) Hh) as [d0 Hd0].
  destruct (Dusts_Update_same_X _ _ _ _ _ _ _ Hu a d0 Hd0) as (d & Hd & _).
  exists d. split; [done|].
  destruct (Hout a d Hh Hd) as [Hstay|Hgone].
  - left. split; [done|]. by apply (Hys' a d).
  - right. split; [|done]. intros Hstay.
    pose proof (Hys' a d Hstay Hd). lia.
Qed.

Lemma range_from_X_back (n i : nat) (h h' : Heap) (ds ds' : Slice) :
  range_from n i h ds = Some (h', ds') ->
  forall (a : addr) (d' : Dust), h' !! a = Some d' ->
    exists d : Dust, h !! a = Some d /\ X (Coords d') = X (Coords d).
Proof.
  intros Hrun a d' Ha'.
  pose proof (range_from_heap_length _ _ _ _ _ _ Hrun) as Hlen.
  destruct (lookup_lt_is_Some_2 h a) as [d Ha].
  { rewrite <- Hlen. by eapply lookup_lt_Some. }
  destruct (range_from_same_X _ _ _ _ _ _ Hrun a d Ha) as (d'' & Ha'' & Hx).
  exists d. split; [done|]. congruence.
Qed.

Lemma Dusts_Update_X_range (seed : Z) (h h' : Heap) (ds ds' : Slice) :
  Dusts_Update seed h ds = Some (h', ds') ->
  (forall (a : addr) (d : Dust), h !! a = Some d -> 0 <= X (Coords d) < boardWidth) ->
  forall (a : addr) (d : Dust), h' !! a = Some d -> 0 <= X (Coords d) < boardWidth.
Proof.
  unfold Particles.Dusts_Update.
  destruct (spawn seed h ds) as [[h1 ds1]|] eqn:Hs; [|discriminate].
  intros Hrun Hall a d' Ha'.
  destruct (range_from_X_back _ _ _ _ _ _ Hrun a d' Ha') as (d & Ha & ->).
  destruct (spawn_cases _ _ _ _ _ Hs) as [(_ & HW & -> & ->)|(_ & -> & ->)].
  - apply lookup_app_Some in Ha as [Ha|[_ Ha]]; [by apply (Hall a)|].
    apply list_lookup_singleton_Some in Ha as [_ <-]. simpl.
    apply Z.mod_pos_bound. lia.
  - by apply (Hall a).
Qed.

(** X4: every Dust a game ever allocates has 0 <= x < boardWidth, at
    every later tick, whatever the generator drew. *)
Theorem Dust_x_on_board (seeds : list Z) (h : Heap) (ds : Slice)
    (a : addr) (d : Dust) :
  run seeds [] empty = Some (h, ds) ->
  h !! a = Some d ->
  0 <= X (Coords d) < boardWidth.
Proof.
  assert (Hgen : forall (h0 h1 : Heap) (ds0 ds1 : Slice),
            run seeds h0 ds0 = Some (h1, ds1) ->
            (forall (b : addr) (e : Dust), h0 !! b = Some e ->
               0 <= X (Coords e) < boardWidth) ->
            forall (b : addr) (e : Dust), h1 !! b = Some e ->
              0 <= X (Coords e) < boardWidth).
  { induction seeds as [|seed rest IH]; intros h0 h1 ds0 ds1; simpl.
    - by intros [= <- <-].
    - destruct (Dusts_Update seed h0 ds0) as [[h2 ds2]|] eqn:Hu; [|discriminate].
      intros Hrun Hall. eapply IH; [exact Hrun|].
      by eapply Dusts_Update_X_range. }
  intros Hrun Ha. eapply Hgen; [exact Hrun| |exact Ha].
  intros b e Hb. by rewrite lookup_nil in Hb.
Qed.

(** X5: a tick in which nothing expires.  If every Dust the loop starts
    from (the one just spawned included) has y >= 1, [Update] removes
    nothing, advances each of those Dusts exactly once, and leaves every
    other Dust as it was. *)
Theorem tick_without_expiry (seed : Z) (h h1 : Heap) (ds ds1 : Slice) :
  live h ds ->
  spawn seed h ds = Some (h1, ds1) ->
  (forall (a : addr) (d : Dust), held ds1 a -> h1 !! a = Some d ->
     1 <= Y (Coords d) <= int_max) ->
  exists h' : Heap,
    Dusts_Update seed h ds = Some (h', ds1) /\
    (forall (a : addr) (d : Dust), held ds1 a -> h1 !! a = Some d ->
       h' !! a = Some (Dust_Update d) /\
       Y (Coords (Dust_Update d)) = Y (Coords d) - 1) /\
    (forall a : addr, ~ held ds1 a -> h' !! a = h1 !! a).
Proof.
  intros Hlive Hs Hys.
  assert (Hlive1 : live h1 ds1).
  { destruct (spawn_cases _ _ _ _ _ Hs) as [(_ & _ & -> & ->)|(_ & -> & ->)];
      [by apply live_append1|done]. }
  destruct Hlive1 as (Hc & Hheld & Hdist).
  destruct (range_from_no_expiry (len ds1) 0 h1 ds1) as (h' & Hrun & Hadv & Hframe).
  - intros j Hj. destruct (Hheld j ltac:(lia)) as (a & d & Hja & Ha).
    exists a, d. split; [done|]. split; [done|].
    apply (Hys a d); [|done]. exists j. split; [lia|done].
  - intros j j' a Hj Hj'. apply Hdist; lia.
  - exists h'. unfold Particles.Dusts_Update. rewrite Hs.
    split; [done|]. split.
    + intros a d (j & Hj & Hja) Ha. split.
      * apply (Hadv j); [lia|done|done].
      * simpl. apply wrap_id.
        pose proof (Hys a d ltac:(by exists j) Ha).
        unfold in_int, int_min, int_max in *. lia.
    + intros a Hnh. apply Hframe. intros j Hj Hja.
      apply Hnh. exists j. split; [lia|done].
Qed.

(** X6: one allocation per tick, at most.  An [Update] allocates exactly
    one Dust when the collection is below capacity and none when it is
    full; the collection grows by at most that one Dust, and the Dusts
    allocated earlier keep their addresses. *)
Theorem one_allocation_per_tick (seed : Z) (h h' : Heap) (ds ds' : Slice) :
  Dusts_Update seed h ds = Some (h', ds') ->
  length h' = (length h + (if (len ds <? maxDusts)%nat then 1 else 0))%nat /\
  (len ds' <= len ds + (if (len ds <? maxDusts)%nat then 1 else 0))%nat /\
  (forall a : addr, (a < length h)%nat -> is_Some (h' !! a)).
Proof.
  unfold Particles.Dusts_Update.
  destruct (spawn seed h ds) as [[h1 ds1]|] eqn:Hs; [|discriminate].
  intros Hrun.
  pose proof (range_from_heap_length _ _ _ _ _ _ Hrun) as Hlen.
  pose proof (range_from_len _ _ _ _ _ _ Hrun) as Hle.
  assert (length h1 = (length h + (if (len ds <? maxDusts)%nat then 1 else 0))%nat /\
          len ds1 = (len ds + (if (len ds <? maxDusts)%nat then 1 else 0))%nat)
    as [Hh1 Hd1].
  { destruct (spawn_cases _ _ _ _ _ Hs) as [(Hl & _ & -> & ->)|(Hl & -> & ->)].
    - destruct (Nat.ltb_spec (len ds) maxDusts); [|lia].
      rewrite length_app, append1_len. simpl. lia.
    - destruct (Nat.ltb_spec (len ds) maxDusts); lia. }
  split; [lia|]. split; [lia|].
  intros a Ha. apply lookup_lt_is_Some. lia.
Qed.

End Board.

Lemma reached_collection_live_witness :
  (len ds50 <= cap ds50)%nat /\
  (forall j : nat, (j < len ds50)%nat ->
     exists (a : addr) (d : Dust),
       array ds50 !! j = Some (Some a) /\ h50 !! a = Some d) /\
  NoDup (elements ds50).
Proof.
  apply (reached_collection_live 84 48 (replicate 50 7) h50 ds50).
  vm_compute. reflexivity.
Defined.

Lemma held_ds49_1 : held ds49 1%nat.
Proof. exists 1%nat. split; [simpl; lia|reflexivity]. Qed.

Lemma held_Dusts_in_range_witness : 0 <= Y (Coords (mkDust (Pt 7 1))) <= 48 + 1.
Proof.
  apply (held_Dusts_in_range 84 48 (replicate 49 7) h49 ds49 1%nat).
  - unfold int_max. lia.
  - vm_compute. reflexivity.
  - apply held_ds49_1.
  - reflexivity.
Defined.

Lemma in_flight_49 : in_flight 48 h49 ds49.
Proof.
  apply (run_in_flight 84 48 (replicate 49 7)) with (h := []) (ds := empty).
  - unfold int_max. lia.
  - vm_compute. reflexivity.
  - apply in_flight_empty.
Qed.

Lemma cull_removes_exactly_expired_witness :
  (forall a : addr, held ds49 a ->
     exists d : Dust, h50 !! a = Some d /\
       ((held ds50 a /\ 0 <= Y (Coords d)) \/ (~ held ds50 a /\ Y (Coords d) = -1))) /\
  (forall a : addr, held ds50 a -> held ds49 a \/ a = length h49).
Proof.
  apply (cull_removes_exactly_expired 84 48 7 h49 h50 ds49 ds50).
  - unfold int_max. lia.
  - apply in_flight_49.
  - vm_compute. reflexivity.
Defined.

Lemma Dust_x_on_board_witness : 0 <= X (Coords (mkDust (Pt 7 48))) < 84.
Proof.
  apply (Dust_x_on_board 84 48 (replicate 51 7) h51 ds51 5%nat).
  - vm_compute. reflexivity.
  - reflexivity.
Defined.

Lemma tick_without_expiry_witness :
  exists h' : Heap,
    Dusts_Update 84 48 7 [mkDust (Pt 7 48)] (mkSlice [Some 0%nat] 1) =
      Some (h', mkSlice [Some 0%nat; Some 1%nat] 2) /\
    (forall (a : addr) (d : Dust),
       held (mkSlice [Some 0%nat; Some 1%nat] 2) a ->
       [mkDust (Pt 7 48); mkDust (Pt 7 49)] !! a = Some d ->
       h' !! a = Some (Dust_Update d) /\
       Y (Coords (Dust_Update d)) = Y (Coords d) - 1) /\
    (forall a : addr, ~ held (mkSlice [Some 0%nat; Some 1%nat] 2) a ->
       h' !! a = [mkDust (Pt 7 48); mkDust (Pt 7 49)] !! a).
Proof.
  apply (tick_without_expiry 84 48 7 [mkDust (Pt 7 48)]
           [mkDust (Pt 7 48); mkDust (Pt 7 49)]
           (mkSlice [Some 0%nat] 1) (mkSlice [Some 0%nat; Some 1%nat] 2)).
  - apply live_singleton.
  - vm_compute. reflexivity.
  - intros a d (j & Hj & Hja) Ha. simpl in Hj.
    destruct j as [|[|j]]; [| |lia].
    + injection Hja as <-. injection Ha as <-. simpl. unfold int_max. lia.
    + injection Hja as <-. injection Ha as <-. simpl. unfold int_max. lia.
Defined.

Lemma one_allocation_per_tick_witness :
  length h50 = (length h49 + (if (len ds49 <? maxDusts)%nat then 1 else 0))%nat /\
  (len ds50 <= len ds49 + (if (len ds49 <? maxDusts)%nat then 1 else 0))%nat /\
  (forall a : addr, (a < length h49)%nat -> is_Some (h50 !! a)).
Proof.
  apply (one_allocation_per_tick 84 48 7 h49 h50 ds49 ds50).
  vm_compute. reflexivity.
Defined.

End ParticleInvariants.

(** ** The game loop *)

Module MainLoopFacts.
Import GoInt GoIntFacts MainLoop.

Lemma wrap_even (x : Z) : Z.even (wrap x) = Z.even x.
Proof.
  unfold wrap. rewrite Z.mod_eq by lia.
  replace (x + 2 ^ 63 - 2 ^ 64 * ((x + 2 ^ 63) / 2 ^ 64) - 2 ^ 63)
    with (x + 2 * (- 2 ^ 63 * ((x + 2 ^ 63) / 2 ^ 64))) by lia.
  rewrite Z.even_add_mul_2. done.
Qed.

Lemma rem2_even (a : Z) : (Z.rem a 2 =? 0) = Z.even a.
Proof.
  pose proof (Z.quot_rem' a 2) as Hqr.
  destruct (Z.eqb_spec (Z.rem a 2) 0) as [H0|Hn0]; symmetry.
  - apply Z.even_spec. exists (a ÷ 2). lia.
  - destruct (Z.even a) eqn:E; [|done].
    apply Z.even_spec in E as [k ->]. exfalso. apply Hn0.
    rewrite Z.mul_comm. apply Z.rem_mul. lia.
Qed.

Lemma wrap_wrap_add (a b : Z) : wrap (wrap a + b) = wrap (a + b).
Proof.
  unfold wrap.
  replace ((a + 2 ^ 63) mod 2 ^ 64 - 2 ^ 63 + b + 2 ^ 63)
    with ((a + 2 ^ 63) mod 2 ^ 64 + b) by lia.
  rewrite Zplus_mod_idemp_l. f_equal. f_equal. lia.
Qed.

Section Board.

Variables boardWidth boardHeight : Z.

Local Abbreviation Dusts_Update := (Particles.Dusts_Update boardWidth boardHeight).
Local Abbreviation Game_Update := (MainLoop.Game_Update boardWidth boardHeight).
Local Abbreviation Game_run := (MainLoop.Game_run boardWidth boardHeight).
Local Abbreviation initial := (MainLoop.initial boardWidth boardHeight).

(** X7: with the parachute open the dust moves at half speed.  Over two
    successive ticks in which Q is not held, and Space is not pressed in
    the first, [Dusts.Update] runs exactly once, on the tick whose
    counter is even, with the draw of that tick; a panic of that call is
    the only panic. *)
Theorem chute_halves_dust_rate (k1 k2 : Keys) (s1 s2 : Z) (w : World)
    (p : Player) :
  GPlayer (game w) = Some p ->
  Chute p = true ->
  KeyQ k1 = false -> KeySpace k1 = false -> KeyQ k2 = false ->
  Game_run [(k1, s1); (k2, s2)] w =
    match Dusts_Update (if Z.even (Tick (game w) + 1) then s1 else s2)
            (heap w) (Dusts (game w)) with
    | Some (h', ds') =>
        Some (mkWorld (xorb (xorb (fullscreen w) (KeyF k1)) (KeyF k2)) h'
                (mkGame (Size (game w))
                   (Some (if KeySpace k2 then Pull p else p))
                   ds' (wrap (Tick (game w) + 2))),
              None)
    | None => None
    end.
Proof.
  destruct w as [fs h [sz gp ds t]], p as [c ch], k1 as [q1 f1 sp1],
    k2 as [q2 f2 sp2].
  simpl. intros -> -> -> -> ->.
  unfold MainLoop.Game_Update. simpl.
  assert (Hfs : forall (b f : bool),
            (if f then (if b then false else true) else b) = xorb b f)
    by (by intros [] []).
  assert (Ht2 : wrap (wrap (t + 1) + 1) = wrap (t + 2))
    by (rewrite wrap_wrap_add; f_equal; lia).
  assert (He2 : Z.even (wrap (wrap (t + 1) + 1)) = negb (Z.even (t + 1))).
  { rewrite wrap_even. replace (wrap (t + 1) + 1) with (Z.succ (wrap (t + 1))) by lia.
    rewrite Z.even_succ, <- Z.negb_even, wrap_even. done. }
  rewrite !rem2_even, wrap_even.
  destruct (Z.even (t + 1)) eqn:E.
  - destruct (Dusts_Update s1 h ds) as [[h' ds']|]; [|done].
    simpl. rewrite rem2_even, He2. simpl. by rewrite !Hfs, Ht2.
  - simpl. rewrite rem2_even, He2. simpl.
    destruct (Dusts_Update s2 h ds) as [[h' ds']|]; [|done].
    by rewrite !Hfs, Ht2.
Qed.

Lemma Game_Update_cases (keys : Keys) (seed : Z) (w w' : World)
    (err : option string) :
  Game_Update keys seed w = Some (w', err) ->
  Size (game w') = Size (game w) /\
  Tick (game w') = wrap (Tick (game w) + 1) /\
  ((err = Some "game quit by player" /\ KeyQ keys = true /\
    fullscreen w' = fullscreen w /\ heap w' = heap w /\
    GPlayer (game w') = GPlayer (game w) /\ Dusts (game w') = Dusts (game w)) \/
   (err = None /\ KeyQ keys = false /\
    fullscreen w' = xorb (fullscreen w) (KeyF keys) /\
    (exists p : Player, GPlayer (game w) = Some p /\
       GPlayer (game w') = Some (if KeySpace keys then Pull p else p)) /\
    ((heap w' = heap w /\ Dusts (game w') = Dusts (game w)) \/
     Dusts_Update seed (heap w) (Dusts (game w)) =
       Some (heap w', Dusts (game w'))))).
Proof.
  destruct w as [fs h [sz gp ds t]], keys as [q f sp].
  unfold MainLoop.Game_Update. simpl. destruct q.
  - intros [= <- <-]. simpl. split; [done|]. split; [done|]. by left.
  - destruct gp as [p|]; [|discriminate].
    assert (Hfs : (if f then (if fs then false else true) else fs) = xorb fs f)
      by (by destruct f, fs).
    rewrite Hfs.
    destruct (Chute p); [destruct (_ =? 0)|].
    + destruct (Dusts_Update seed h ds) as [[h' ds']|] eqn:Hu; [|discriminate].
      intros [= <- <-]. simpl. split; [done|]. split; [done|]. right.
      repeat split; try done. by exists p. by right.
    + intros [= <- <-]. simpl. split; [done|]. split; [done|]. right.
      repeat split; try done. by exists p. by left.
    + destruct (Dusts_Update seed h ds) as [[h' ds']|] eqn:Hu; [|discriminate].
      intros [= <- <-]. simpl. split; [done|]. split; [done|]. right.
      repeat split; try done. by exists p. by right.
Qed.

Lemma Game_run_inv (inputs : list (Keys * Z)) :
  forall (w0 w : World) (err : option string),
    Game_run inputs w0 = Some (w, err) ->
    Size (game w) = Size (game w0) /\
    (forall p0 : Player, GPlayer (game w0) = Some p0 ->
       exists p : Player, GPlayer (game w) = Some p /\ Coords p = Coords p0) /\
    ((Particles.len (Dusts (game w0)) <= Particles.maxDusts)%nat ->
     (Particles.len (Dusts (game w)) <= Particles.maxDusts)%nat) /\
    (0 <= boardHeight + 1 <= int_max ->
     Particles.in_flight boardHeight (heap w0) (Dusts (game w0)) ->
     Particles.in_flight boardHeight (heap w) (Dusts (game w))) /\
    (in_int (Tick (game w0)) ->
     exists n : nat, (n <= length inputs)%nat /\
       Tick (game w) = wrap (Tick (game w0) + Z.of_nat n) /\
       (err = None -> n = length inputs)) /\
    (err = None \/ err = Some "game quit by player").
Proof.
  induction inputs as [|[keys seed] rest IH]; intros w0 w err; simpl.
  - intros [= <- <-]. split; [done|].
    split; [intros p0 Hp0; by exists p0|]. split; [done|]. split; [done|].
    split; [|by left].
    intros Ht. exists 0%nat. split; [done|]. split; [|done].
    rewrite Z.add_0_r. by rewrite wrap_id.
  - destruct (Game_Update keys seed w0) as [[w1 [e|]]|] eqn:Hu; [| |discriminate].
    + intros [= <- <-].
      destruct (Game_Update_cases _ _ _ _ _ Hu) as (Hsz & Ht & [Hq|Hn]);
        [|by destruct Hn as (? & _)].
      destruct Hq as (He & _ & _ & Hh & Hp & Hd).
      rewrite Hh, Hd, Hp. split; [done|].
      split; [intros p0 Hp0; by exists p0|]. split; [done|]. split; [done|].
      split; [|by right].
      intros _. exists 1%nat. split; [simpl; lia|]. split; [by rewrite Ht|done].
    + intros Hrun.
      destruct (Game_Update_cases _ _ _ _ _ Hu) as (Hsz & Ht & [Hq|Hn]);
        [by destruct Hq as (? & _)|].
      destruct Hn as (_ & _ & _ & (p & Hp & Hp') & Hd).
      destruct (IH _ _ _ Hrun) as (Isz & Ip & Il & If & It & Ie).
      split; [congruence|]. split; [|split; [|split; [|split]]].
      * intros p0 Hp0. assert (p0 = p) by congruence. subst p0.
        destruct (Ip _ Hp') as (p1 & Hp1 & Hc). exists p1. split; [done|].
        rewrite Hc. by destruct (KeySpace keys).
      * intros Hl. apply Il. destruct Hd as [[_ ->]|Hd]; [done|].
        by eapply ParticleFacts.Dusts_Update_len.
      * intros HH Hfl. apply If; [done|].
        destruct Hd as [[-> ->]|Hd]; [done|].
        by destruct (ParticleInvariants.Dusts_Update_cull _ _ _ _ _ _ _ HH Hfl Hd).
      * intros Hin. destruct It as (n & Hn & Htn & Hen).
        { rewrite Ht. apply wrap_in_int. }
        exists (S n). split; [lia|]. split; [|intros He; by rewrite Hen].
        rewrite Htn, Ht, wrap_wrap_add. f_equal. lia.
      * done.
Qed.

Lemma Game_run_ticks (inputs : list (Keys * Z)) :
  forall (w0 w : World) (err : option string),
    Game_run inputs w0 = Some (w, err) ->
    in_int (Tick (game w0)) ->
    Tick (game w) = wrap (Tick (game w0) + Z.of_nat (calls inputs)) /\
    err = (if existsb (fun i : Keys * Z => KeyQ i.1) inputs
           then Some "game quit by player" else None).
Proof.
  induction inputs as [|[keys seed] rest IH]; intros w0 w err; simpl.
  - intros [= <- <-] Ht. split; [|done]. rewrite Z.add_0_r. by rewrite wrap_id.
  - destruct (Game_Update keys seed w0) as [[w1 [e|]]|] eqn:Hu; [| |discriminate].
    + intros [= <- <-] _.
      destruct (Game_Update_cases _ _ _ _ _ Hu) as (_ & Ht & [Hq|Hn]);
        [|by destruct Hn as (? & _)].
      destruct Hq as (He & Hq & _). rewrite Hq. simpl. split; [done|].
      by injection He as ->.
    + intros Hrun _.
      destruct (Game_Update_cases _ _ _ _ _ Hu) as (_ & Ht & [Hq|Hn]);
        [by destruct Hq as (? & _)|].
      destruct Hn as (_ & Hq & _). rewrite Hq. simpl.
      destruct (IH _ _ _ Hrun) as (Htick & Herr).
      { rewrite Ht. apply wrap_in_int. }
      split; [|done]. rewrite Htick, Ht, wrap_wrap_add. f_equal. lia.
Qed.

(** X8: what a whole game keeps.  From the game [main] builds, after any
    sequence of ticks, whatever keys and draws they see: the size and
    the position of the player are as at the start, the collection holds
    at most 5 Dusts, all well formed with 0 <= y <= boardHeight + 1, the
    tick counter is the number of [Update] calls made (in [int64]), the
    call that quits included, and [Update] has returned an error exactly
    when Q was held in one of the ticks, the quit of the player. *)
Theorem game_keeps (inputs : list (Keys * Z)) (fs : bool) (w : World)
    (err : option string) :
  0 <= boardHeight < int_max ->
  Game_run inputs (initial fs) = Some (w, err) ->
  Size (game w) = Particles.Pt boardWidth boardHeight /\
  GPlayer (game w) <> None /\
  (forall p : Player, GPlayer (game w) = Some p ->
     Coords p = Particles.Pt (boardWidth ÷ 2) (boardHeight ÷ 2)) /\
  (Particles.len (Dusts (game w)) <= 5)%nat /\
  Particles.in_flight boardHeight (heap w) (Dusts (game w)) /\
  Tick (game w) = wrap (Z.of_nat (calls inputs)) /\
  err = (if existsb (fun i : Keys * Z => KeyQ i.1) inputs
         then Some "game quit by player" else None).
Proof.
  intros HH Hrun.
  destruct (Game_run_inv _ _ _ _ Hrun) as (Isz & Ip & Il & If & _ & _).
  destruct (Game_run_ticks _ _ _ _ Hrun) as (Ht & He).
  { simpl. unfold in_int, int_min, int_max. lia. }
  destruct (Ip _ eq_refl) as (p & Hp & Hc).
  split; [done|]. split; [by rewrite Hp|]. split; [|split; [|split; [|split]]].
  - intros p' Hp'. by assert (p' = p) as -> by congruence.
  - apply Il. simpl. unfold Particles.maxDusts. lia.
  - apply If; [lia|]. apply ParticleInvariants.in_flight_empty.
  - exact Ht.
  - exact He.
Qed.

(** X9: the two toggles.  In a game that has not ended, full screen is
    what it was at the start, flipped once per tick in which F was just
    pressed, and the parachute is what it was, flipped once per tick in
    which Space was just pressed; and Q was held in none of the ticks. *)
Theorem toggles_count_presses (inputs : list (Keys * Z)) (w0 w : World)
    (p0 : Player) :
  GPlayer (game w0) = Some p0 ->
  Game_run inputs w0 = Some (w, None) ->
  fullscreen w =
    foldl (fun (b : bool) (i : Keys * Z) => xorb b (KeyF i.1)) (fullscreen w0) inputs /\
  (exists p : Player, GPlayer (game w) = Some p /\
     Chute p =
       foldl (fun (b : bool) (i : Keys * Z) => xorb b (KeySpace i.1)) (Chute p0) inputs) /\
  Forall (fun i : Keys * Z => KeyQ i.1 = false) inputs.
Proof.
  revert w0 p0. induction inputs as [|[keys seed] rest IH]; intros w0 p0 Hp0; simpl.
  - intros [= <-]. split; [done|]. split; [by exists p0|constructor].
  - destruct (Game_Update keys seed w0) as [[w1 [e|]]|] eqn:Hu; try discriminate.
    intros Hrun.
    destruct (Game_Update_cases _ _ _ _ _ Hu) as (_ & _ & [Hq|Hn]);
      [by destruct Hq as (? & _)|].
    destruct Hn as (_ & Hq & Hfs & (p & Hp & Hp') & _).
    assert (p = p0) by congruence. subst p.
    destruct (IH _ _ Hp' Hrun) as (Ifs & (p1 & Hp1 & Hch) & Iq).
    split; [by rewrite Ifs, Hfs|]. split; [|by constructor].
    exists p1. split; [done|]. rewrite Hch. f_equal.
    destruct (KeySpace keys); simpl; [|by rewrite xorb_false_r].
    by rewrite xorb_true_r.
Qed.

End Board.

Lemma chute_halves_dust_rate_witness :
  Game_run 84 48 [(mkKeys false false false, 7); (mkKeys false true true, 8)]
    (mkWorld false [] (mkGame (Particles.Pt 84 48)
       (Some (mkPlayer (Particles.Pt 42 24) true)) Particles.empty 0)) =
  Some (mkWorld true [Particles.mkDust (Particles.Pt 8 48)]
          (mkGame (Particles.Pt 84 48)
             (Some (mkPlayer (Particles.Pt 42 24) false))
             (Particles.mkSlice [Some 0%nat] 1) 2),
        None).
Proof.
  apply (chute_halves_dust_rate 84 48 (mkKeys false false false)
           (mkKeys false true true) 7 8
           (mkWorld false [] (mkGame (Particles.Pt 84 48)
              (Some (mkPlayer (Particles.Pt 42 24) true)) Particles.empty 0))
           (mkPlayer (Particles.Pt 42 24) true));
    reflexivity.
Defined.

Lemma game_keeps_witness :
  exists (w : World) (err : option string),
    Game_run 84 48
      [(mkKeys false true true, 7); (mkKeys false false false, 8);
       (mkKeys true false false, 9); (mkKeys false false false, 10)]
      (initial 84 48 false) = Some (w, err) /\
    err = Some "game quit by player" /\
    Tick (game w) = 3 /\
    (Particles.len (Dusts (game w)) <= 5)%nat /\
    Size (game w) = Particles.Pt 84 48.
Proof.
  eexists _, _. split; [vm_compute; reflexivity|].
  destruct (game_keeps 84 48
              [(mkKeys false true true, 7); (mkKeys false false false, 8);
               (mkKeys true false false, 9); (mkKeys false false false, 10)]
              false _ _ ltac:(unfold int_max; lia) eq_refl)
    as (Hsz & _ & _ & Hl & _ & Ht & He).
  split; [exact He|]. split; [exact Ht|]. split; [exact Hl|exact Hsz].
Defined.

Lemma toggles_count_presses_witness :
  exists w : World,
    Game_run 84 48
      [(mkKeys false true true, 7); (mkKeys false false true, 8);
       (mkKeys false false true, 9)]
      (initial 84 48 false) = Some (w, None) /\
    fullscreen w = true /\
    exists p : Player, GPlayer (game w) = Some p /\ Chute p = true.
Proof.
  eexists. split; [vm_compute; reflexivity|].
  destruct (toggles_count_presses 84 48
              [(mkKeys false true true, 7); (mkKeys false false true, 8);
               (mkKeys false false true, 9)]
              (initial 84 48 false) _
              (mkPlayer (Particles.Pt (84 ÷ 2) (48 ÷ 2)) false) eq_refl eq_refl)
    as (Hfs & Hp & _).
  split; [exact Hfs|exact Hp].
Defined.

End MainLoopFacts.

(** ** More on the loaders and the sound pool *)

Module PoolFacts.
Import GoInt GoIntFacts Assets AssetFacts.

Local Arguments Play_empty {_}.
Local Arguments Play_nonempty {_}.
Local Arguments PlayVariant_in_range {_}.
Local Arguments PlayVariant_out_of_range {_}.
Local Arguments Pause_in_range {_}.

Section Backend.

Variables ebiten_Image image_Image File vorbis_Stream audio_Player
  audio_Context : Type.
Variable path_Join : list string -> string.
Variable assets_Open : string -> File + error.
Variable ioutil_ReadAll : File -> list Byte.byte * option error.
Variable json_Unmarshal :
  list Byte.byte -> SpriteSheet ebiten_Image -> SpriteSheet ebiten_Image * option error.
Variable png_Decode : File -> image_Image + error.
Variable ebiten_NewImageFromImage : image_Image -> ebiten_Image.
Variable vorbis_DecodeWithSampleRate : Z -> File -> vorbis_Stream + error.
Variable vorbis_Length : vorbis_Stream -> Z.
Variable audio_NewPlayer :
  audio_Context -> Source vorbis_Stream -> audio_Player + error.

Local Abbreviation LoadImage :=
  (Assets.LoadImage assets_Open png_Decode ebiten_NewImageFromImage).
Local Abbreviation loadSprite :=
  (Assets.loadSprite path_Join assets_Open ioutil_ReadAll json_Unmarshal
     png_Decode ebiten_NewImageFromImage).
Local Abbreviation AddMusic :=
  (Assets.AddMusic assets_Open vorbis_DecodeWithSampleRate vorbis_Length
     audio_NewPlayer).
Local Abbreviation AddSound_from :=
  (Assets.AddSound_from assets_Open vorbis_DecodeWithSampleRate audio_NewPlayer).
Local Abbreviation AddSound :=
  (Assets.AddSound assets_Open vorbis_DecodeWithSampleRate audio_NewPlayer).
Local Abbreviation clip_player :=
  (Assets.clip_player assets_Open vorbis_DecodeWithSampleRate audio_NewPlayer).
Local Abbreviation clip_fails :=
  (Assets.clip_fails assets_Open vorbis_DecodeWithSampleRate audio_NewPlayer).
Local Abbreviation pool :=
  (Assets.pool assets_Open vorbis_DecodeWithSampleRate vorbis_Length
     audio_NewPlayer).

(** *** The sprite loader *)

(** X10: when [loadSprite] returns.  It returns a sheet exactly when the
    description opens and reads and the image opens and decodes; the
    sheet then carries what [json.Unmarshal] wrote into an empty sheet,
    whether or not it reported an error, and the decoded image, never a
    nil one.  No run of [loadSprite] ends on an error of the decoder of
    the description. *)
Theorem loadSprite_returns_iff (name : string) (ss : SpriteSheet ebiten_Image) :
  (loadSprite name = Ok ss <->
   exists (file : File) (data : list Byte.byte) (imgfile : File) (raw : image_Image),
     assets_Open (path_Join ["assets"; "sprites"; name] +:+ ".json") = inl file /\
     ioutil_ReadAll file = (data, None) /\
     assets_Open (path_Join ["assets"; "sprites"; name] +:+ ".png") = inl imgfile /\
     png_Decode imgfile = inl raw /\
     ss = mkSpriteSheet
            (Sprite (json_Unmarshal data zeroSpriteSheet).1)
            (Meta (json_Unmarshal data zeroSpriteSheet).1)
            (Some (ebiten_NewImageFromImage raw))) /\
  (forall e : error, loadSprite name <> Fatal (UnmarshalFailed e)).
Proof.
  unfold Assets.loadSprite, Assets.LoadImage.
  destruct (assets_Open (path_Join ["assets"; "sprites"; name] +:+ ".json"))
    as [file|e0] eqn:Ho.
  2:{ split; [|done]. split; [done|]. by intros (? & ? & ? & ? & ? & _). }
  destruct (ioutil_ReadAll file) as [data [e1|]] eqn:Hr.
  { split; [|done]. split; [done|].
    intros (? & ? & ? & ? & [= <-] & Hr' & _). congruence. }
  destruct (assets_Open (path_Join ["assets"; "sprites"; name] +:+ ".png"))
    as [imgfile|e2] eqn:Hp.
  2:{ split; [|done]. split; [done|]. by intros (? & ? & ? & ? & _ & _ & ? & _). }
  destruct (png_Decode imgfile) as [raw|e3] eqn:Hd.
  2:{ split; [|done]. split; [done|].
      intros (? & ? & ? & ? & _ & _ & [= <-] & Hd' & _). congruence. }
  split; [|done]. split.
  - intros [= <-]. by exists file, data, imgfile, raw.
  - intros (file' & data' & imgfile' & raw' & [= <-] & Hr' & [= <-] & Hd' & ->).
    rewrite Hr in Hr'. injection Hr' as <-.
    rewrite Hd in Hd'. by injection Hd' as <-.
Qed.

(** *** Loading sounds *)

(** X11: [AddMusic] returns exactly when [f.ogg] opens, decodes, and
    binds to a player as an infinite loop over the whole length of the
    stream; it has then appended that one player at the end of the pool
    and changed nothing else. *)
Theorem AddMusic_returns_iff (f : string) (sampleRate : Z)
    (context : audio_Context) (s s' : Sound audio_Player) :
  AddMusic f sampleRate context s = Ok s' <->
  exists (file : File) (music : vorbis_Stream) (p : audio_Player),
    assets_Open (f +:+ ".ogg") = inl file /\
    vorbis_DecodeWithSampleRate sampleRate file = inl music /\
    audio_NewPlayer context (InfiniteLoop music (vorbis_Length music)) = inl p /\
    s' = mkSound (Audio s ++ [p]) (LastPlayed s) (Volume s).
Proof.
  unfold Assets.AddMusic, Assets.LoadSoundFile, Assets.NewMusicPlayer.
  destruct (assets_Open (f +:+ ".ogg")) as [file|e] eqn:Ho.
  2:{ split; [done|]. by intros (? & ? & ? & ? & _). }
  destruct (vorbis_DecodeWithSampleRate sampleRate file) as [music|e] eqn:Hd.
  2:{ split; [done|]. intros (? & ? & ? & [= <-] & Hd' & _). congruence. }
  destruct (audio_NewPlayer context (InfiniteLoop music (vorbis_Length music)))
    as [p|e] eqn:Hp.
  2:{ split; [done|]. intros (? & ? & ? & [= <-] & Hd' & Hp' & _).
      rewrite Hd in Hd'. injection Hd' as <-. congruence. }
  split.
  - intros [= <-]. by exists file, music, p.
  - intros (? & ? & ? & [= <-] & Hd' & Hp' & ->).
    rewrite Hd in Hd'. injection Hd' as <-.
    rewrite Hp in Hp'. by injection Hp' as <-.
Qed.

(** X12: a variant count of zero or less.  [AddSound] then opens no
    file at all and returns the pool as it was, whatever the assets
    are. *)
Theorem AddSound_without_variants (f : string) (sampleRate : Z)
    (context : audio_Context) (v : list Z) (s : Sound audio_Player) :
  variantCount v <= 0 ->
  AddSound f sampleRate context v s = Ok s /\
  spec_variantNames f (variantCount v) = [].
Proof.
  intros Hv. unfold Assets.AddSound, spec_variantNames.
  replace (Z.to_nat (variantCount v)) with 0%nat by lia.
  split; [done|]. by destruct (Z.eqb_spec (variantCount v) 1); [lia|].
Qed.

Lemma AddSound_from_fatal_iff (f : string) (sampleRate : Z)
    (context : audio_Context) (variants : Z) (c : Cause) (n : nat) :
  forall (i : Z) (s : Sound audio_Player),
    AddSound_from n i f sampleRate context variants s = Fatal c <->
    exists (before : list string) (name : string) (after : list string)
           (players : list audio_Player),
      names_from f variants n i = before ++ name :: after /\
      Forall2 (clip_player sampleRate context) before players /\
      clip_fails sampleRate context name c.
Proof.
  induction n as [|n IH]; intros i s; simpl.
  - split; [done|]. intros (before & name & after & _ & Hn & _).
    by destruct before.
  - unfold Assets.LoadSoundFile, Assets.NewSoundPlayer.
    set (name0 := variantFile f variants i).
    assert (Hhead : forall (before : list string) (name : string)
                      (after : list string) (players : list audio_Player),
              name0 :: names_from f variants n (wrap (i + 1)) =
                before ++ name :: after ->
              Forall2 (clip_player sampleRate context) before players ->
              (before = [] /\ name = name0) \/
              (exists (b' : list string) (p : audio_Player) (ps : list audio_Player),
                 before = name0 :: b' /\ players = p :: ps /\
                 clip_player sampleRate context name0 p /\
                 Forall2 (clip_player sampleRate context) b' ps /\
                 names_from f variants n (wrap (i + 1)) = b' ++ name :: after)).
    { intros before name after players Heq Hall.
      destruct before as [|b0 b']; simpl in Heq; injection Heq as <- Heq.
      - by left.
      - right. apply Forall2_cons_inv_l in Hall as (p & ps & Hc & Hall & ->).
        by exists b', p, ps. }
    destruct (assets_Open name0) as [file|e] eqn:Ho.
    2:{ split.
        - intros [= <-].
          exists [], name0, (names_from f variants n (wrap (i + 1))), [].
          split; [done|].
          split; [constructor|]. left. by exists e.
        - intros (before & name & after & players & Heq & Hall & Hf).
          destruct (Hhead _ _ _ _ Heq Hall)
            as [[-> ->]|(b' & p & ps & _ & _ & (? & ? & Ho' & _) & _)];
            [|congruence].
          destruct Hf as [(e' & Ho' & ->)|[(? & ? & Ho' & _)|(? & ? & ? & Ho' & _)]];
            congruence. }
    destruct (vorbis_DecodeWithSampleRate sampleRate file) as [stream|e] eqn:Hd.
    2:{ split.
        - intros [= <-].
          exists [], name0, (names_from f variants n (wrap (i + 1))), [].
          split; [done|].
          split; [constructor|]. right. left. by exists file, e.
        - intros (before & name & after & players & Heq & Hall & Hf).
          destruct (Hhead _ _ _ _ Heq Hall)
            as [[-> ->]|(b' & p & ps & _ & _ & (? & ? & Ho' & Hd' & _) & _)];
            [|congruence].
          destruct Hf as [(e' & Ho' & ->)|[(? & ? & Ho' & Hd' & ->)
                                          |(? & ? & ? & Ho' & Hd' & _)]];
            congruence. }
    destruct (audio_NewPlayer context (Stream stream)) as [p|e] eqn:Hp.
    2:{ split.
        - intros [= <-].
          exists [], name0, (names_from f variants n (wrap (i + 1))), [].
          split; [done|].
          split; [constructor|]. right. right. by exists file, stream, e.
        - intros (before & name & after & players & Heq & Hall & Hf).
          destruct (Hhead _ _ _ _ Heq Hall)
            as [[-> ->]|(b' & p & ps & _ & _ & (? & ? & Ho' & Hd' & Hp') & _)];
            [|congruence].
          destruct Hf as [(e' & Ho' & ->)|[(? & ? & Ho' & Hd' & ->)
                                          |(? & ? & ? & Ho' & Hd' & Hp' & ->)]];
            congruence. }
    rewrite IH. split.
    + intros (before & name & after & players & Heq & Hall & Hf).
      exists (name0 :: before), name, after, (p :: players).
      split; [by rewrite Heq|]. split; [|done].
      constructor; [|done]. by exists file, stream.
    + intros (before & name & after & players & Heq & Hall & Hf).
      destruct (Hhead _ _ _ _ Heq Hall)
        as [[-> ->]|(b' & p' & ps & -> & -> & _ & Hall' & Heq')].
      * destruct Hf as [(e' & Ho' & ->)|[(? & ? & Ho' & Hd' & ->)
                                        |(? & ? & ? & Ho' & Hd' & Hp' & ->)]];
          congruence.
      * by exists b', name, after, ps.
Qed.

(** X13: where [AddSound] stops.  It ends in [log.Fatalf] exactly at the
    first file of the naming convention that does not open, decode or
    bind, after the files before it have loaded, and reports that file's
    failure; the files after it are not looked at. *)
Theorem AddSound_fatal_iff (f : string) (sampleRate : Z)
    (context : audio_Context) (v : list Z) (s : Sound audio_Player) (c : Cause) :
  variantCount v <= int_max ->
  (AddSound f sampleRate context v s = Fatal c <->
   exists (before : list string) (name : string) (after : list string)
          (players : list audio_Player),
     spec_variantNames f (variantCount v) = before ++ name :: after /\
     Forall2 (clip_player sampleRate context) before players /\
     clip_fails sampleRate context name c).
Proof.
  intros Hmax. unfold Assets.AddSound.
  rewrite <- names_from_spec by done. apply AddSound_from_fatal_iff.
Qed.

(** *** Playing and pausing *)

(** X15: [Play] never panics on a pool whose volume is in [[0, 1]], the
    range the players accept.  Whatever the variants and the generator,
    it returns; it leaves the players and the volume as they were, and
    on a pool with variants the index it records as last played is one
    of the pool. *)
Theorem Play_always_returns (seed : Z) (s : Sound audio_Player) :
  (0 <=? Volume s)%float && (Volume s <=? 1)%float = true ->
  exists (s' : Sound audio_Player) (t : list event),
    Play seed s = Some (s', t) /\
    Audio s' = Audio s /\ Volume s' = Volume s /\
    match Audio s with
    | [] => s' = s /\ t = []
    | _ :: _ => 0 <= LastPlayed s' < Z.of_nat (length (Audio s))
    end.
Proof.
  intros _. destruct (Audio s) as [|p l] eqn:E.
  - exists s, []. rewrite Play_empty by done. by rewrite E.
  - destruct (Play_nonempty seed s) as (i & Hi & Hplay & _); [by rewrite E|].
    exists (plays i s).1, (plays i s).2. rewrite Hplay. simpl.
    split; [done|]. split; [done|]. split; [done|].
    rewrite E in Hi. simpl in *. lia.
Qed.

(** X16: on a pool whose volume is in [[0, 1]], the range the players
    accept, [PlayVariant(i)] returns exactly when
    [0 <= i < len(s.Audio)]; for every other index, a negative one
    included, it panics. *)
Theorem PlayVariant_returns_iff (i : Z) (s : Sound audio_Player) :
  (0 <=? Volume s)%float && (Volume s <=? 1)%float = true ->
  (is_Some (PlayVariant i s) <-> 0 <= i < Z.of_nat (length (Audio s))) /\
  (PlayVariant i s = None <-> i < 0 \/ Z.of_nat (length (Audio s)) <= i).
Proof.
  intros _. destruct (decide (0 <= i < Z.of_nat (length (Audio s)))) as [Hin|Hout].
  - assert (PlayVariant i s = Some (plays (Z.to_nat i) s)) as ->.
    { rewrite <- PlayVariant_in_range by lia. by rewrite Z2Nat.id by lia. }
    split; split.
    + done.
    + by eexists.
    + done.
    + lia.
  - rewrite PlayVariant_out_of_range by lia.
    split; split.
    + by intros [? ?].
    + done.
    + lia.
    + done.
Qed.

Lemma pool_inv (s : Sound audio_Player) :
  pool s ->
  (0 <=? Volume s)%float && (Volume s <=? 1)%float = true /\
  0 <= LastPlayed s /\
  (LastPlayed s = 0 \/ LastPlayed s < Z.of_nat (length (Audio s))).
Proof.
  induction 1 as [|f sampleRate context s s' _ IH Hadd
                  |f sampleRate context v s s' _ IH Hadd
                  |v s _ IH|seed s s' t _ IH Hp|i s s' t _ IH Hp|s s' t _ IH Hp].
  - split; [reflexivity|]. split; [done|by left].
  - unfold Assets.AddMusic in Hadd.
    destruct (Assets.LoadSoundFile _ _ _ _) as [music|]; [|discriminate].
    destruct (Assets.NewMusicPlayer _ _ _ _) as [p|]; [|discriminate].
    injection Hadd as <-. simpl. rewrite length_app. simpl.
    destruct IH as (Hv & Hl & Hr). split; [done|]. split; [done|].
    destruct Hr; [by left|right; lia].
  - unfold Assets.AddSound in Hadd.
    apply AddSound_from_iff in Hadd as (players & _ & ->). simpl.
    rewrite length_app.
    destruct IH as (Hv & Hl & Hr). split; [done|]. split; [done|].
    destruct Hr; [by left|right; lia].
  - unfold SetVolume.
    destruct ((0 <=? v)%float && (v <=? 1)%float) eqn:Hv; [|done].
    simpl. destruct IH as (_ & Hl & Hr). done.
  - destruct IH as (Hv & Hl & Hr).
    destruct (Audio s) as [|p l] eqn:E.
    + rewrite Play_empty in Hp by done. injection Hp as <- _. by rewrite E.
    + destruct (Play_nonempty seed s) as (i & Hi & Hplay & _); [by rewrite E|].
      rewrite Hplay in Hp. injection Hp as <- _. simpl.
      split; [done|]. split; [lia|]. right. lia.
  - destruct IH as (Hv & Hl & Hr).
    destruct (decide (0 <= i < Z.of_nat (length (Audio s)))) as [Hin|Hout].
    + rewrite <- (Z2Nat.id i), PlayVariant_in_range in Hp by lia.
      injection Hp as <- _. simpl. split; [done|]. split; [lia|]. right. lia.
    + rewrite PlayVariant_out_of_range in Hp by lia. discriminate.
  - unfold Pause in Hp. destruct (call s (LastPlayed s) CallPause); [|discriminate].
    by injection Hp as <- _.
Qed.

(** X17: on a pool that the methods alone have built, [Pause] never
    panics once the pool holds a variant: [LastPlayed] is always the
    index of one, and [Pause] pauses that one and changes nothing. *)
Theorem Pause_returns_on_pool (s : Sound audio_Player) :
  pool s ->
  Audio s <> [] ->
  exists i : nat,
    (i < length (Audio s))%nat /\ LastPlayed s = Z.of_nat i /\
    Pause s = Some (s, [(i, CallPause)]).
Proof.
  intros Hpool Hne. destruct (pool_inv s Hpool) as (_ & Hl & Hr).
  assert (0 < length (Audio s))%nat by (destruct (Audio s); [done|simpl; lia]).
  exists (Z.to_nat (LastPlayed s)).
  assert (Z.to_nat (LastPlayed s) < length (Audio s))%nat by lia.
  split; [done|]. split; [lia|]. apply Pause_in_range; lia.
Qed.

(** X18: on a pool that the methods alone have built, the volume a
    player is given is always in [[0, 1]]: every [SetVolume] call that
    [Play] or [PlayVariant] makes on a player carries such a value. *)
Theorem players_get_unit_volume (seed j : Z) (s s' : Sound audio_Player)
    (t : list event) (i : nat) (v : float) :
  pool s ->
  Play seed s = Some (s', t) \/ PlayVariant j s = Some (s', t) ->
  (i, CallSetVolume v) ∈ t ->
  (0 <=? v)%float && (v <=? 1)%float = true.
Proof.
  intros Hpool Hplay Hin. destruct (pool_inv s Hpool) as (Hv & _ & _).
  assert (exists k : nat, t = (plays k s).2 \/ t = []) as (k & Ht).
  { destruct Hplay as [Hp|Hp].
    - destruct (Audio s) as [|p l] eqn:E.
      + rewrite Play_empty in Hp by done. injection Hp as _ <-.
        exists 0%nat. by right.
      + destruct (Play_nonempty seed s) as (k & _ & Hk & _); [by rewrite E|].
        rewrite Hk in Hp. injection Hp as _ <-. exists k. by left.
    - destruct (decide (0 <= j < Z.of_nat (length (Audio s)))) as [Hj|Hj].
      + rewrite <- (Z2Nat.id j), PlayVariant_in_range in Hp by lia.
        injection Hp as _ <-. exists (Z.to_nat j). by left.
      + rewrite PlayVariant_out_of_range in Hp by lia. discriminate. }
  destruct Ht as [-> | ->]; [|by apply elem_of_nil in Hin].
  simpl in Hin. apply elem_of_cons in Hin as [[= _ ->]|Hin]; [done|].
  apply elem_of_cons in Hin as [[=]|Hin].
  apply elem_of_cons in Hin as [[=]|Hin].
  by apply elem_of_nil in Hin.
Qed.

(** X19: [Play] and then [Pause].  On a pool with variants whose volume
    is in [[0, 1]], the range the players accept, [Play] sets the volume
    of one variant, rewinds it and starts it, and the [Pause] that
    follows pauses that same variant, without a panic. *)
Theorem Play_then_Pause (seed : Z) (s : Sound audio_Player) :
  (0 <=? Volume s)%float && (Volume s <=? 1)%float = true ->
  Audio s <> [] ->
  exists (i : nat) (s' : Sound audio_Player),
    (i < length (Audio s))%nat /\
    Play seed s =
      Some (s', [(i, CallSetVolume (Volume s)); (i, CallRewind); (i, CallPlay)]) /\
    Pause s' = Some (s', [(i, CallPause)]).
Proof.
  intros _ Hne. destruct (Play_nonempty seed s Hne) as (i & Hi & Hplay & _).
  exists i, (plays i s).1. split; [done|]. split; [done|].
  by apply Pause_in_range.
Qed.

(** X20: loading more sounds does not disturb a pool.  After [AddMusic]
    or [AddSound] returns, every player is at the index it had, the
    volume and the last played index are as before, and a [Pause] that
    returned before returns after, pausing the same player. *)
Theorem loading_keeps_the_pool (f : string) (sampleRate : Z)
    (context : audio_Context) (v : list Z) (s s' : Sound audio_Player) :
  AddMusic f sampleRate context s = Ok s' \/
  AddSound f sampleRate context v s = Ok s' ->
  Audio s `prefix_of` Audio s' /\
  LastPlayed s' = LastPlayed s /\ Volume s' = Volume s /\
  (forall t : list event, Pause s = Some (s, t) -> Pause s' = Some (s', t)).
Proof.
  intros Hload.
  assert (exists players : list audio_Player,
            s' = mkSound (Audio s ++ players) (LastPlayed s) (Volume s))
    as (players & ->).
  { destruct Hload as [Hadd|Hadd].
    - unfold Assets.AddMusic in Hadd.
      destruct (Assets.LoadSoundFile _ _ _ _) as [music|]; [|discriminate].
      destruct (Assets.NewMusicPlayer _ _ _ _) as [p|]; [|discriminate].
      injection Hadd as <-. by exists [p].
    - unfold Assets.AddSound in Hadd.
      apply AddSound_from_iff in Hadd as (players & _ & ->). by exists players. }
  simpl. split; [by exists players|]. split; [done|]. split; [done|].
  intros t. unfold Pause, call, index. simpl.
  destruct (LastPlayed s <? 0); [done|].
  destruct (Audio s !! Z.to_nat (LastPlayed s)) as [p|] eqn:Hp; [|done].
  rewrite (lookup_app_l_Some _ _ _ _ Hp). simpl. by intros [= <-].
Qed.

End Backend.

(** *** The names of the variants *)

Lemma list_ascii_of_append (a b : string) :
  list_ascii_of_string (a +:+ b) = list_ascii_of_string a ++ list_ascii_of_string b.
Proof. induction a as [|c a IH]; simpl; [done|by rewrite IH]. Qed.

Lemma append_inv_tail (a b t : string) : a +:+ t = b +:+ t -> a = b.
Proof.
  intros Heq. apply (f_equal list_ascii_of_string) in Heq.
  rewrite !list_ascii_of_append in Heq. apply app_inv_tail in Heq.
  by rewrite <- (string_of_list_ascii_of_string a),
             <- (string_of_list_ascii_of_string b), Heq.
Qed.

Lemma append_inv_head (p a b : string) : p +:+ a = p +:+ b -> a = b.
Proof. induction p as [|c p IH]; simpl; [done|]. intros [= Heq]. by apply IH. Qed.

Lemma to_int_not_nil (z : Z) :
  Z.to_int z <> Decimal.Pos Decimal.Nil /\ Z.to_int z <> Decimal.Neg Decimal.Nil.
Proof.
  destruct z as [|p|p]; simpl; split; try done;
    intros [= Hp]; by apply DecimalPos.Unsigned.to_uint_nonnil in Hp.
Qed.

Lemma strconv_Itoa_inj (a b : Z) : strconv_Itoa a = strconv_Itoa b -> a = b.
Proof.
  unfold strconv_Itoa. intros Heq. apply DecimalZ.to_int_inj.
  apply (f_equal NilZero.int_of_string) in Heq.
  destruct (to_int_not_nil a), (to_int_not_nil b).
  rewrite !NilZero.isi in Heq by done. by injection Heq.
Qed.

Lemma spec_variantNames_NoDup (f : string) (variants : Z) :
  NoDup (spec_variantNames f variants).
Proof.
  unfold spec_variantNames. destruct (variants =? 1).
  - apply NoDup_singleton.
  - apply NoDup_fmap_2; [|apply NoDup_seq].
    intros k k' Heq.
    apply append_inv_head, append_inv_head, append_inv_tail in Heq.
    apply strconv_Itoa_inj in Heq. lia.
Qed.

Section Names.

Variables File vorbis_Stream audio_Player audio_Context : Type.
Variable assets_Open : string -> File + error.
Variable vorbis_DecodeWithSampleRate : Z -> File -> vorbis_Stream + error.
Variable audio_NewPlayer :
  audio_Context -> Source vorbis_Stream -> audio_Player + error.

Local Abbreviation AddSound :=
  (Assets.AddSound assets_Open vorbis_DecodeWithSampleRate audio_NewPlayer).
Local Abbreviation clip_player :=
  (Assets.clip_player assets_Open vorbis_DecodeWithSampleRate audio_NewPlayer).

(** X14: [AddSound] never loads a file twice.  The file names its loop
    builds, one per iteration, are all different ([strconv.Itoa] gives
    different counters different suffixes), and a call that returns has
    loaded exactly these, one player each. *)
Theorem variant_files_distinct (f : string) (sampleRate : Z)
    (context : audio_Context) (v : list Z) (s : Sound audio_Player) :
  variantCount v <= int_max ->
  NoDup (names_from f (variantCount v) (Z.to_nat (variantCount v)) 0) /\
  (forall s' : Sound audio_Player,
     AddSound f sampleRate context v s = Ok s' <->
     exists players : list audio_Player,
       Forall2 (clip_player sampleRate context)
         (names_from f (variantCount v) (Z.to_nat (variantCount v)) 0) players /\
       s' = mkSound (Audio s ++ players) (LastPlayed s) (Volume s)).
Proof.
  intros Hmax. split.
  - rewrite names_from_spec by done. apply spec_variantNames_NoDup.
  - intros s'. unfold Assets.AddSound. apply AddSound_from_iff.
Qed.

End Names.

(** *** On the fixture *)

Lemma step_pool :
  pool Fixture.assets_Open Fixture.vorbis_DecodeWithSampleRate
    Fixture.vorbis_Length Fixture.audio_NewPlayer Fixture.step.
Proof.
  apply (pool_AddSound _ _ _ _ _ _ _ _ "step" 44100 tt [3] zeroSound).
  - apply pool_zero.
  - reflexivity.
Qed.

Lemma AddSound_without_variants_witness :
  AddSound Fixture.assets_Open Fixture.vorbis_DecodeWithSampleRate
    Fixture.audio_NewPlayer "missing" 44100 tt [0] Fixture.step = Ok Fixture.step /\
  spec_variantNames "missing" (variantCount [0]) = [].
Proof.
  apply (AddSound_without_variants (list Byte.byte) (list Byte.byte)
           (Source (list Byte.byte)) unit
           Fixture.assets_Open Fixture.vorbis_DecodeWithSampleRate
           Fixture.audio_NewPlayer "missing" 44100 tt [0] Fixture.step).
  simpl. lia.
Defined.

Lemma AddSound_fatal_iff_witness :
  AddSound Fixture.assets_Open Fixture.vorbis_DecodeWithSampleRate
    Fixture.audio_NewPlayer "step" 44100 tt [4] zeroSound =
  Fatal (OpenFailed "step-4.ogg" "file does not exist").
Proof.
  apply (AddSound_fatal_iff (list Byte.byte) (list Byte.byte)
           (Source (list Byte.byte)) unit
           Fixture.assets_Open Fixture.vorbis_DecodeWithSampleRate
           Fixture.audio_NewPlayer "step" 44100 tt [4] zeroSound).
  - unfold int_max. simpl. lia.
  - exists ["step-1.ogg"; "step-2.ogg"; "step-3.ogg"], "step-4.ogg", [],
      [Stream [Byte.x01]; Stream [Byte.x02]; Stream [Byte.x03]].
    split; [reflexivity|]. split.
    + repeat constructor; eexists _, _; repeat split; reflexivity.
    + left. exists "file does not exist". split; reflexivity.
Defined.

Lemma Pause_returns_on_pool_witness :
  exists i : nat,
    (i < length (Audio Fixture.step))%nat /\
    LastPlayed Fixture.step = Z.of_nat i /\
    Pause Fixture.step = Some (Fixture.step, [(i, CallPause)]).
Proof.
  apply (Pause_returns_on_pool (list Byte.byte) (list Byte.byte)
           (Source (list Byte.byte)) unit
           Fixture.assets_Open Fixture.vorbis_DecodeWithSampleRate
           Fixture.vorbis_Length Fixture.audio_NewPlayer Fixture.step).
  - apply step_pool.
  - discriminate.
Defined.

Lemma players_get_unit_volume_witness :
  (0 <=? 0.5)%float && (0.5 <=? 1)%float = true.
Proof.
  apply (players_get_unit_volume (list Byte.byte) (list Byte.byte)
           (Source (list Byte.byte)) unit
           Fixture.assets_Open Fixture.vorbis_DecodeWithSampleRate
           Fixture.vorbis_Length Fixture.audio_NewPlayer
           7 0 (SetVolume 0.5 Fixture.step)
           (plays 1 (SetVolume 0.5 Fixture.step)).1
           (plays 1 (SetVolume 0.5 Fixture.step)).2 1%nat 0.5%float).
  - apply pool_SetVolume, step_pool.
  - left. reflexivity.
  - apply elem_of_cons. by left.
Defined.

Lemma Play_then_Pause_witness :
  exists (i : nat) (s' : Sound (Source (list Byte.byte))),
    (i < length (Audio Fixture.step))%nat /\
    Play 7 Fixture.step =
      Some (s', [(i, CallSetVolume (Volume Fixture.step)); (i, CallRewind);
                 (i, CallPlay)]) /\
    Pause s' = Some (s', [(i, CallPause)]).
Proof.
  apply (Play_then_Pause (Source (list Byte.byte)) 7 Fixture.step).
  - reflexivity.
  - discriminate.
Defined.

Lemma Play_always_returns_witness :
  exists (s' : Sound (Source (list Byte.byte))) (t : list event),
    Play 7 Fixture.step = Some (s', t) /\
    Audio s' = Audio Fixture.step /\ Volume s' = Volume Fixture.step /\
    0 <= LastPlayed s' < Z.of_nat (length (Audio Fixture.step)).
Proof.
  apply (Play_always_returns (Source (list Byte.byte)) 7 Fixture.step).
  reflexivity.
Defined.

Lemma PlayVariant_returns_iff_witness :
  (is_Some (PlayVariant 3 Fixture.step) <->
   0 <= 3 < Z.of_nat (length (Audio Fixture.step))) /\
  (PlayVariant 3 Fixture.step = None <->
   3 < 0 \/ Z.of_nat (length (Audio Fixture.step)) <= 3).
Proof.
  apply (PlayVariant_returns_iff (Source (list Byte.byte)) 3 Fixture.step).
  reflexivity.
Defined.

Lemma variant_files_distinct_witness :
  NoDup ["step-1.ogg"; "step-2.ogg"; "step-3.ogg"] /\
  (forall s' : Sound (Source (list Byte.byte)),
     AddSound Fixture.assets_Open Fixture.vorbis_DecodeWithSampleRate
       Fixture.audio_NewPlayer "step" 44100 tt [3] Fixture.step = Ok s' <->
     exists players : list (Source (list Byte.byte)),
       Forall2 (clip_player Fixture.assets_Open
                  Fixture.vorbis_DecodeWithSampleRate Fixture.audio_NewPlayer
                  44100 tt)
         ["step-1.ogg"; "step-2.ogg"; "step-3.ogg"] players /\
       s' = mkSound (Audio Fixture.step ++ players) (LastPlayed Fixture.step)
              (Volume Fixture.step)).
Proof.
  apply (variant_files_distinct (list Byte.byte) (list Byte.byte)
           (Source (list Byte.byte)) unit
           Fixture.assets_Open Fixture.vorbis_DecodeWithSampleRate
           Fixture.audio_NewPlayer "step" 44100 tt [3] Fixture.step).
  unfold int_max. simpl. lia.
Defined.

Lemma loading_keeps_the_pool_witness :
  Audio Fixture.step `prefix_of`
    Audio (mkSound (Audio Fixture.step ++ Audio Fixture.step) 0 0%float) /\
  LastPlayed (mkSound (Audio Fixture.step ++ Audio Fixture.step) 0 0%float) =
    LastPlayed Fixture.step /\
  Volume (mkSound (Audio Fixture.step ++ Audio Fixture.step) 0 0%float) =
    Volume Fixture.step /\
  (forall t : list event,
     Pause Fixture.step = Some (Fixture.step, t) ->
     Pause (mkSound (Audio Fixture.step ++ Audio Fixture.step) 0 0%float) =
       Some (mkSound (Audio Fixture.step ++ Audio Fixture.step) 0 0%float, t)).
Proof.
  apply (loading_keeps_the_pool (list Byte.byte) (list Byte.byte)
           (Source (list Byte.byte)) unit
           Fixture.assets_Open Fixture.vorbis_DecodeWithSampleRate
           Fixture.vorbis_Length Fixture.audio_NewPlayer
           "step" 44100 tt [3] Fixture.step).
  right. reflexivity.
Defined.

End PoolFacts.

(** ** The sprite loader on the embedded assets *)

Module EmbeddedAssets.
Import Assets PoolFacts.

Lemma json_is_not_png (p base : string) : p +:+ ".json" <> base +:+ ".png".
Proof.
  intros Heq. apply (f_equal list_ascii_of_string) in Heq.
  rewrite !list_ascii_of_append in Heq.
  apply (f_equal (@rev ascii)) in Heq.
  rewrite !rev_app_distr in Heq. simpl in Heq. discriminate.
Qed.

Lemma json_is_not_root (p : string) : p +:+ ".json" <> ".".
Proof.
  intros Heq. apply (f_equal list_ascii_of_string) in Heq.
  rewrite list_ascii_of_append in Heq.
  apply (f_equal (@rev ascii)) in Heq.
  rewrite rev_app_distr in Heq. simpl in Heq. discriminate.
Qed.

Section Backend.

Variables ebiten_Image image_Image File : Type.
Variable path_Join : list string -> string.
Variable assets_Open : string -> File + error.
Variable ioutil_ReadAll : File -> list Byte.byte * option error.
Variable json_Unmarshal :
  list Byte.byte -> SpriteSheet ebiten_Image -> SpriteSheet ebiten_Image * option error.
Variable png_Decode : File -> image_Image + error.
Variable ebiten_NewImageFromImage : image_Image -> ebiten_Image.

Local Abbreviation loadSprite :=
  (Assets.loadSprite path_Join assets_Open ioutil_ReadAll json_Unmarshal
     png_Decode ebiten_NewImageFromImage).


End Backend.

Lemma embedded_Open_png_only : embeds_png_only Fixture.embedded_Open.
Proof.
  intros name file. unfold Fixture.embedded_Open.
  destruct (String.eqb_spec name ".") as [->|_]; [by left|].
  destruct (String.eqb_spec name "hero.png") as [->|_]; [|discriminate].
  intros _. right. exists "hero". split; reflexivity.
Qed.


End EmbeddedAssets.
